(** * CLImage: the filename-extension logic of Image.cpp

    A shallow embedding of the extension handling of the [Image] wrapper
    class (Image/Image.cpp, Image.h): the format table
    [VALID_EXTENSIONS], [hasValidExtension], [removeExtension],
    [addExtension], [generateFilename] and [saveImage]; and, around it,
    of [openImage], the two constructors, [setupImage] of ImgTest.cpp
    and the functions that read and write pixels.

    Conventions of the embedding.
    - A [std::string] is a list of characters; positions are counted
      from 0.
    - The [int] index variables of the source ([ch], [ext_ch], [mod_ch],
      [idx]) are integers of [Z].  Filenames are taken to be shorter than
      2^31 characters, so that [length()] converted to [int] is the
      length itself.
    - A call can end in three ways: it returns, it throws a C++
      exception that nothing in Image.cpp catches, or it runs into
      behaviour the C++ standard leaves undefined (a read outside the
      format table, a signed overflow).  The type [outcome] keeps the
      three apart. *)

From Stdlib Require Import ZArith List Ascii String Bool Lia.
From Stdlib Require Import DecimalString DecimalZ DecimalPos DecimalNat.
From Stdlib Require Strings.Byte.
Import ListNotations.

Local Open Scope Z_scope.

(** [length] is the length of a list throughout, not that of a [string]. *)
Abbreviation length := Datatypes.length (only parsing).

(** ** Outcomes of a call *)

Inductive exn : Type :=
| std_out_of_range       (* std::out_of_range: string::at, substr, erase, stoi *)
| std_invalid_argument.  (* std::invalid_argument: stoi without digits *)

Inductive ub : Type :=
| table_read_out_of_bounds (idx : Z)  (* VALID_EXTENSIONS[idx], idx outside 0..5 *)
| signed_overflow.                    (* int arithmetic past INT_MAX *)

Inductive outcome (A : Type) : Type :=
| Ret (a : A)
| Throw (e : exn)
| Undefined (u : ub).

Arguments Ret {A} a.
Arguments Throw {A} e.
Arguments Undefined {A} u.

Definition bind {A B : Type} (m : outcome A) (k : A -> outcome B) : outcome B :=
  match m with
  | Ret a => k a
  | Throw e => Throw e
  | Undefined u => Undefined u
  end.

Notation "x <- m ;; k" := (bind m (fun x => k))
  (at level 61, m at next level, right associativity).
Notation "' pat <- m ;; k" := (bind m (fun x => match x with pat => k end))
  (at level 61, pat pattern, m at next level, right associativity).

Definition returns {A : Type} (m : outcome A) : Prop := exists a, m = Ret a.

(** ** The part of [std::string] that Image.cpp uses *)

Module StdString.

Definition str : Type := list ascii.

(** A string literal of the source. *)
Definition lit (s : string) : str := list_ascii_of_string s.

Definition size (s : str) : Z := Z.of_nat (length s).

Definition empty (s : str) : bool :=
  match s with [] => true | _ => false end.

(** Positions and counts are [size_type] in C++, and Image.cpp hands
    them [int]s.  A negative [int] converted to [size_type] is a
    position beyond the end of every string, and a count larger than
    what is left; a non-negative one is itself. *)
Definition in_range (s : str) (pos : Z) : bool :=
  (0 <=? pos) && (pos <? size s).

Definition up_to_end (s : str) (pos : Z) : bool :=
  (0 <=? pos) && (pos <=? size s).

(** [s.at(i)]: the character at position [i], [std::out_of_range]
    when the position is not below [size()]. *)
Definition at_ (s : str) (i : Z) : outcome ascii :=
  if in_range s i then
    match nth_error s (Z.to_nat i) with
    | Some c => Ret c
    | None => Throw std_out_of_range
    end
  else Throw std_out_of_range.

(** The number of characters an operation at [pos] with count [n]
    covers: [min(n, size() - pos)]. *)
Definition span (s : str) (pos n : Z) : nat :=
  if n <? 0 then Z.to_nat (size s - pos)
  else Z.to_nat (Z.min n (size s - pos)).

(** [s.substr(pos, n)] *)
Definition substr (s : str) (pos n : Z) : outcome str :=
  if up_to_end s pos
  then Ret (firstn (span s pos n) (skipn (Z.to_nat pos) s))
  else Throw std_out_of_range.

(** [s.erase(pos, n)] *)
Definition erase (s : str) (pos n : Z) : outcome str :=
  if up_to_end s pos
  then Ret (firstn (Z.to_nat pos) s ++ skipn (Z.to_nat pos + span s pos n) s)
  else Throw std_out_of_range.

(** [s.insert(pos, t)] *)
Definition insert (s : str) (pos : Z) (t : str) : outcome str :=
  if up_to_end s pos
  then Ret (firstn (Z.to_nat pos) s ++ t ++ skipn (Z.to_nat pos) s)
  else Throw std_out_of_range.

(** [s.replace(pos, n, t)] *)
Definition replace (s : str) (pos n : Z) (t : str) : outcome str :=
  if up_to_end s pos
  then Ret (firstn (Z.to_nat pos) s ++ t
            ++ skipn (Z.to_nat pos + span s pos n) s)
  else Throw std_out_of_range.

(** [s.append(t)] *)
Definition append (s t : str) : str := s ++ t.

(** [!s.compare(t)]: the two strings are equal, character by
    character (case-sensitive). *)
Fixpoint equal (s t : str) : bool :=
  match s, t with
  | [], [] => true
  | c :: s', d :: t' => Ascii.eqb c d && equal s' t'
  | _, _ => false
  end.

(** [isdigit(c)] in the C locale: '0' .. '9'. *)
Definition isdigit (c : ascii) : bool :=
  let n := nat_of_ascii c in (48 <=? n)%nat && (n <=? 57)%nat.

Definition is_dot (c : ascii) : bool := Ascii.eqb c "."%char.
Definition is_underscore (c : ascii) : bool := Ascii.eqb c "_"%char.

(** *** [std::stoi] and [std::to_string] on [int] *)

Definition INT_MAX : Z := 2147483647.

Definition digit_value (c : ascii) : Z := Z.of_nat (nat_of_ascii c) - 48.

(** The number a run of decimal digits denotes. *)
Definition decimal_value (digits : str) : Z :=
  fold_left (fun acc c => 10 * acc + digit_value c) digits 0.

(** The leading run of decimal digits of a string. *)
Fixpoint leading_digits (s : str) : str :=
  match s with
  | c :: s' => if isdigit c then c :: leading_digits s' else []
  | [] => []
  end.

(** [std::stoi(s)] for a string without sign or leading blanks, which
    is all Image.cpp passes: the value of the leading digits,
    [std::invalid_argument] when there are none, [std::out_of_range]
    when the value does not fit in an [int]. *)
Definition stoi (s : str) : outcome Z :=
  match leading_digits s with
  | [] => Throw std_invalid_argument
  | ds => let v := decimal_value ds in
          if v <=? INT_MAX then Ret v else Throw std_out_of_range
  end.

(** [a + b] on [int]: undefined when the sum leaves the range. *)
Definition int_add (a b : Z) : outcome Z :=
  let r := a + b in
  if (- INT_MAX - 1 <=? r) && (r <=? INT_MAX) then Ret r
  else Undefined signed_overflow.

(** [std::to_string(n)]: decimal digits, with a minus sign for a
    negative number. *)
Definition to_string (n : Z) : str :=
  list_ascii_of_string (NilZero.string_of_int (Z.to_int n)).

End StdString.

Import StdString.

(** ** The format table *)

(** The OpenCV codes the table names (their numeric values belong to
    OpenCV, not to this repository). *)
Inductive cv_param : Type :=
| CV_IMWRITE_PNG_COMPRESSION
| CV_IMWRITE_JPEG_QUALITY
| CV_IMWRITE_PXM_BINARY.

Record FormatTrip : Type := mkFormatTrip {
  ext : str;
  format : cv_param;
  quality : Z
}.

Definition EXTENSION_COUNT : Z := 6.

Definition VALID_EXTENSIONS : list FormatTrip :=
  [ mkFormatTrip (lit ".png")  CV_IMWRITE_PNG_COMPRESSION 9;
    mkFormatTrip (lit ".jpg")  CV_IMWRITE_JPEG_QUALITY 100;
    mkFormatTrip (lit ".jpeg") CV_IMWRITE_JPEG_QUALITY 100;
    mkFormatTrip (lit ".pbm")  CV_IMWRITE_PXM_BINARY 1;
    mkFormatTrip (lit ".pgm")  CV_IMWRITE_PXM_BINARY 1;
    mkFormatTrip (lit ".ppm")  CV_IMWRITE_PXM_BINARY 1 ].

(** [VALID_EXTENSIONS[idx]]: a plain array subscript, nothing checks
    the index. *)
Definition table_read (idx : Z) : outcome FormatTrip :=
  if (0 <=? idx) && (idx <? EXTENSION_COUNT) then
    match nth_error VALID_EXTENSIONS (Z.to_nat idx) with
    | Some ft => Ret ft
    | None => Undefined (table_read_out_of_bounds idx)
    end
  else Undefined (table_read_out_of_bounds idx).

(** ** [Image::hasValidExtension] *)

(** [while( FILENAME.at(ch) != '.') --ch;]
    The loop has no lower bound of its own: once [ch] has passed 0 the
    next test is [FILENAME.at(-1)], which throws. *)
Fixpoint locate_dot_unguarded (FILENAME : str) (ch : nat) : outcome Z :=
  c <- at_ FILENAME (Z.of_nat ch) ;;
  if is_dot c then Ret (Z.of_nat ch)
  else match ch with
       | S ch' => locate_dot_unguarded FILENAME ch'
       | O => _ <- at_ FILENAME (-1) ;; Ret (-1)
       end.

(** [while(idx < EXTENSION_COUNT) { if(!ext.compare(VALID_EXTENSIONS[idx].ext)) return idx; ++idx; } return -1;]
    [rest] is the part of the table from [idx] on. *)
Fixpoint search_table (e : str) (rest : list FormatTrip) (idx : Z) : Z :=
  match rest with
  | ft :: rest' => if equal e (ext ft) then idx else search_table e rest' (idx + 1)
  | [] => -1
  end.

Definition hasValidExtension (FILENAME : str) : outcome Z :=
  if empty FILENAME then Ret (-3) else
  let ch := size FILENAME - 1 in
  ch <- locate_dot_unguarded FILENAME (Z.to_nat ch) ;;
  if ch =? 0 then Ret (-2) else
  e <- substr FILENAME ch (size FILENAME - 1) ;;
  Ret (search_table e VALID_EXTENSIONS 0).

(** ** The [Image] object, as far as the filename logic sees it *)

(** [cv::Mat]: only whether its [data] pointer is set matters here. *)
Record Mat : Type := mkMat { data : bool }.

Record Image : Type := mkImage {
  filename : str;
  super : option Mat      (* std::unique_ptr<cv::Mat>, None for nullptr *)
}.

(** [bool initialized(void) const { return (super && super->data); }] *)
Definition initialized (this : Image) : bool :=
  match super this with
  | Some m => data m
  | None => false
  end.

(** ** [Image::removeExtension] *)

(** [while(ch > 0 && s.at(ch) != '.') --ch;] *)
Fixpoint locate_dot (s : str) (ch : nat) : outcome Z :=
  match ch with
  | O => Ret 0
  | S ch' =>
      c <- at_ s (Z.of_nat ch) ;;
      if is_dot c then Ret (Z.of_nat ch) else locate_dot s ch'
  end.

(** The string argument is passed by reference: the function returns
    its [bool] together with the string as it leaves it. *)
Definition removeExtension (bad_filename : str) : outcome (bool * str) :=
  if empty bad_filename then Ret (false, bad_filename) else
  let s_len := size bad_filename in
  let ch := s_len - 1 in
  ch <- locate_dot bad_filename (Z.to_nat ch) ;;
  if ch =? 0 then Ret (false, bad_filename) else
  s <- erase bad_filename ch (s_len - ch) ;;
  Ret (true, s).

(** ** [Image::addExtension] *)

Definition addExtension (this : Image) (incomplete_filename : str)
  : outcome (bool * str) :=
  if negb (initialized this) then Ret (false, incomplete_filename) else
  '(_, stripped) <- removeExtension incomplete_filename ;;
  Ret (true, append stripped (lit ".png")).

(** ** [Image::generateFilename] *)

(** [while(mod_ch >= 0 && isdigit(seed.at(mod_ch)))
      { mod.insert(0,1, seed.at(mod_ch)); --mod_ch; }]
    returns [mod_ch] and [mod] as the loop leaves them ([mod] is
    written [mod_], the plain word being an operator here). *)
Fixpoint collect_digits (seed : str) (mod_ch : nat) (mod_ : str)
  : outcome (Z * str) :=
  c <- at_ seed (Z.of_nat mod_ch) ;;
  if isdigit c then
    match mod_ch with
    | S mod_ch' => collect_digits seed mod_ch' (c :: mod_)
    | O => Ret (-1, c :: mod_)
    end
  else Ret (Z.of_nat mod_ch, mod_).

Definition generateFilename (seed : str) : outcome str :=
  if empty seed then Ret [] else
  valid <- hasValidExtension seed ;;
  if negb (valid >=? 0) then Ret [] else
  let s_len := size seed in
  ext_ch <- locate_dot seed (Z.to_nat (s_len - 1)) ;;
  let mod_ch := ext_ch - 1 in
  c <- at_ seed mod_ch ;;
  if isdigit c then
    '(mod_ch, mod_) <- collect_digits seed (Z.to_nat mod_ch) [] ;;
    complete <- (if mod_ch >? 0
                 then d <- at_ seed mod_ch ;; Ret (is_underscore d)
                 else Ret false) ;;
    if complete then
      n <- stoi mod_ ;;
      n1 <- int_add n 1 ;;
      let mod_ := lit "_" ++ to_string n1 in
      replace seed mod_ch (ext_ch - mod_ch) mod_
    else Ret seed
  else insert seed ext_ch (lit "_1").

(** ** [Image::saveImage] *)

(** What a call of [saveImage] leaves behind: the [bool] it returns,
    the object with its possibly renamed file, and the arguments of
    the call to [cv::imwrite], when one was made. *)
Record imwrite_args : Type := mkArgs {
  path : str;
  COMPRESSION_FORMAT : cv_param;
  QUALITY : Z
}.

Record saved : Type := mkSaved {
  result : bool;
  image : Image;
  codec_call : option imwrite_args
}.

Section Codec.

(** [cv::imwrite] is OpenCV's: [imwrite_completes args] tells whether
    the call comes back without the [std::runtime_error] that
    [saveImage] catches. *)
Variable imwrite_completes : imwrite_args -> bool.

(** In [ext_idx < 0 || ext_idx >= EXTENSION_COUNT] the second test
    compares an [int] with a [uint]; it is only reached with
    [ext_idx >= 0], where the conversion changes nothing. *)
Definition saveImage (this : Image) : outcome saved :=
  if negb (initialized this) || empty (filename this)
  then Ret (mkSaved false this None) else
  ext_idx <- hasValidExtension (filename this) ;;
  renamed <-
    (if (ext_idx <? 0) || (EXTENSION_COUNT <=? ext_idx) then
       '(_, f) <- removeExtension (filename this) ;;
       '(added, f) <- addExtension this f ;;
       Ret (added, mkImage f (super this))
     else Ret (true, this)) ;;
  let '(went_on, this) := renamed in
  if negb went_on then Ret (mkSaved false this None) else
  ft <- table_read ext_idx ;;
  let args := mkArgs (filename this) (format ft) (quality ft) in
  Ret (mkSaved (imwrite_completes args) this (Some args)).

End Codec.

(** ** [Image::openImage], the constructors and [setupImage] *)

Section Files.

(** What lies outside the program: whether [std::ifstream(name)] opens
    (the test [if(std::ifstream(name))]), and the matrix that
    [cv::imread(name, cv::IMREAD_UNCHANGED)] returns, without [data]
    when it could not decode the file. *)
Variable file_exists : str -> bool.
Variable imread : str -> Mat.

(** The function returns its [bool] together with the object as it
    leaves it.  [chosen] is the name under which the image is read,
    [None] where the source returns [false] before reading. *)
Definition openImage (this : Image) (filename_param : str) : bool * Image :=
  if initialized this || (empty filename_param && empty (filename this))
  then (false, this) else
  let chosen : option str :=
    if negb (empty filename_param) && empty (filename this) then
      if file_exists filename_param then Some filename_param else None
    else if negb (empty filename_param) && negb (empty (filename this)) then
      if negb (file_exists (filename this)) && file_exists filename_param
      then Some filename_param else None
    else if empty filename_param && negb (empty (filename this))
            && negb (file_exists (filename this))
    then None
    else Some (filename this) in
  match chosen with
  | None => (false, this)
  | Some name => (true, mkImage name (Some (imread name)))
  end.

(** [Image::Image(const std::string & filename)]:
    the name is stored, then [openImage()] is called without argument;
    when that fails [super] is reset to [nullptr]. *)
Definition Image_new (name : str) : Image :=
  let this := mkImage name None in
  let '(ok, this) := openImage this [] in
  if ok then this else mkImage (filename this) None.

(** [setupImage] of ImgTest.cpp: [argv1] is [argv[1]] when [argc > 1].
    The result is the pointer returned, [None] for [nullptr]; [new]
    always yields an object. *)
Definition DEFAULT_IMG_FILENAME : str := lit "mario.png".

Definition setupImage (argv1 : option str) : option Image :=
  let new_img := Some (Image_new []) in
  let '(img_opened, new_img) :=
    match argv1, new_img with
    | Some arg, Some img =>
        let '(ok, img) := openImage img arg in (ok, Some img)
    | _, _ => (false, new_img)
    end in
  if img_opened || (match new_img with None => true | Some _ => false end)
  then new_img
  else match new_img with
       | Some img => Some (snd (openImage img DEFAULT_IMG_FILENAME))
       | None => None
       end.

End Files.

(** [Image::Image(const Image & img_src)]: the name of the copy is
    generated from the name of the source, the matrix is copied when
    there is one. *)
Definition Image_copy (img_src : Image) : outcome Image :=
  name <- generateFilename (filename img_src) ;;
  Ret (mkImage name
         (match super img_src with
          | Some m => Some (mkMat (data m))
          | None => None
          end)).

(** ** The pixel functions *)

(** The functions that read and write pixels see more of the matrix
    than the filename logic does: its size, its number of channels and
    its contents.  They are embedded over a [cv::Mat] of depth
    [CV_8U], each pixel a [cv::Vec<uchar, channels()>].
    [cv::Mat::at] does not check its indices: a call outside the
    matrix leaves the contract of OpenCV, and so does a read past the
    end of an array handed in by the caller.  [access] keeps those
    outcomes apart from a return. *)
Module Raster.

Definition uchar : Type := Byte.byte.

(** [static_cast<uint>(c)] *)
Definition uint_of_uchar (c : uchar) : Z := Z.of_N (Byte.to_N c).

Record Mat : Type := mkMat {
  rows : Z;
  cols : Z;
  channels : Z;
  data : option (Z -> Z -> Z -> uchar)   (* row, column, channel; None: no data *)
}.

Record Image : Type := mkImage {
  filename : str;
  super : option Mat
}.

Inductive access (A : Type) : Type :=
| Value (a : A)
| OutsideMatrix (row col : Z)   (* cv::Mat::at outside the matrix *)
| OutsideArray (idx : Z).       (* c_arr[idx] past the caller's array *)

Arguments Value {A} a.
Arguments OutsideMatrix {A} row col.
Arguments OutsideArray {A} idx.

Definition then_ {A B : Type} (m : access A) (k : A -> access B) : access B :=
  match m with
  | Value a => k a
  | OutsideMatrix row col => OutsideMatrix row col
  | OutsideArray idx => OutsideArray idx
  end.

(** A [uint] handed to an [int] parameter, and an [int] returned as
    [uint]. *)
Definition to_int (u : Z) : Z := if u <? 2 ^ 31 then u else u - 2 ^ 32.
Definition to_uint (i : Z) : Z := i mod 2 ^ 32.

Definition initialized (this : Image) : bool :=
  match super this with
  | Some m => match data m with Some _ => true | None => false end
  | None => false
  end.

Definition getWidth (this : Image) : Z :=
  if negb (initialized this) then 0 else
  match super this with Some m => to_uint (cols m) | None => 0 end.

Definition getHeight (this : Image) : Z :=
  if negb (initialized this) then 0 else
  match super this with Some m => to_uint (rows m) | None => 0 end.

Definition getChannels (this : Image) : Z :=
  match super this with Some m => to_uint (channels m) | None => 0 end.

(** [dimInRange(int row, int col)] *)
Definition dimInRange (this : Image) (row col : Z) : bool :=
  if negb (initialized this) then false else
  match super this with
  | Some m =>
      if (row <? 0) || (row >=? rows m) || (col <? 0) || (col >=? cols m)
      then false else true
  | None => false
  end.

(** [super->at< cv::Vec<uchar, C> >(row, col)] with [C] the number of
    channels of the matrix: the pixel, read ... *)
Definition at_ (m : Mat) (row col : Z) : access (Z -> uchar) :=
  match data m with
  | Some px =>
      if (0 <=? row) && (row <? rows m) && (0 <=? col) && (col <? cols m)
      then Value (px row col) else OutsideMatrix row col
  | None => OutsideMatrix row col
  end.

(** ... and [super->at< cv::Vec<uchar, C> >(row, col)[clr] = v]. *)
Definition at_put (m : Mat) (row col clr : Z) (v : uchar) : access Mat :=
  match data m with
  | Some px =>
      if (0 <=? row) && (row <? rows m) && (0 <=? col) && (col <? cols m)
      then Value (mkMat (rows m) (cols m) (channels m)
                    (Some (fun r c k =>
                             if (r =? row) && (c =? col) && (k =? clr)
                             then v else px r c k)))
      else OutsideMatrix row col
  | None => OutsideMatrix row col
  end.

(** [for(uint clr_idx = 0; clr_idx < N; ++clr_idx)
      channel_arr[clr_idx] = pixel[clr_idx];] *)
Definition copy_channels (pixel : Z -> uchar) (N : nat) : list uchar :=
  map (fun clr_idx => pixel (Z.of_nat clr_idx)) (seq 0 N).

(** The delegates are called on an object with a matrix only. *)
Definition pixel_of (this : Image) (row col : Z) : access (Z -> uchar) :=
  match super this with
  | Some m => at_ m (to_int row) (to_int col)
  | None => OutsideMatrix (to_int row) (to_int col)
  end.

Definition getArrColors_one (this : Image) (row col : Z) : access (list uchar) :=
  then_ (pixel_of this row col) (fun pixel => Value [pixel 0]).

Definition getArrColors_two (this : Image) (row col : Z) : access (list uchar) :=
  then_ (pixel_of this row col) (fun pixel => Value (copy_channels pixel 2)).

Definition getArrColors_three (this : Image) (row col : Z) : access (list uchar) :=
  then_ (pixel_of this row col) (fun pixel => Value (copy_channels pixel 3)).

Definition getArrColors_four (this : Image) (row col : Z) : access (list uchar) :=
  then_ (pixel_of this row col) (fun pixel => Value (copy_channels pixel 4)).

Definition getArrColors_five (this : Image) (row col : Z) : access (list uchar) :=
  then_ (pixel_of this row col) (fun pixel => Value (copy_channels pixel 5)).

(** [getArrColors(uint row, uint col)]: [None] is the empty
    [unique_ptr]. *)
Definition getArrColors (this : Image) (row col : Z)
  : access (option (list uchar)) :=
  if negb (initialized this) then Value None else
  match super this with
  | Some m =>
      match channels m with
      | 1 => then_ (getArrColors_one this row col) (fun a => Value (Some a))
      | 2 => then_ (getArrColors_two this row col) (fun a => Value (Some a))
      | 3 => then_ (getArrColors_three this row col) (fun a => Value (Some a))
      | 4 => then_ (getArrColors_four this row col) (fun a => Value (Some a))
      | 5 => then_ (getArrColors_five this row col) (fun a => Value (Some a))
      | _ => Value None
      end
  | None => Value None
  end.

(** [arr[clr]] of an array of the caller, or of one made here. *)
Definition subscript {A : Type} (arr : list A) (clr : Z) : access A :=
  match (if clr <? 0 then None else nth_error arr (Z.to_nat clr)) with
  | Some a => Value a
  | None => OutsideArray clr
  end.

(** [for(; clr < channels; ++clr)
      arr_clrs_int[clr] = static_cast<uint>(arr_clrs[clr]);]
    with [left] iterations to go. *)
Fixpoint widen (arr_clrs : list uchar) (clr : Z) (left : nat) : access (list Z) :=
  match left with
  | O => Value []
  | S left' =>
      then_ (subscript arr_clrs clr) (fun c =>
      then_ (widen arr_clrs (clr + 1) left') (fun rest =>
      Value (uint_of_uchar c :: rest)))
  end.

Definition getArrColors_int (this : Image) (row col : Z)
  : access (option (list Z)) :=
  then_ (getArrColors this row col) (fun arr_clrs =>
  match arr_clrs, super this with
  | Some arr_clrs, Some m =>
      then_ (widen arr_clrs 0 (Z.to_nat (channels m))) (fun a => Value (Some a))
  | _, _ => Value None
  end).

(** [while(clr < chans && static_cast<uint>(c_arr[clr]) < 256) ++clr;]
    returns [clr] as the loop leaves it. *)
Fixpoint check_colors (c_arr : list uchar) (clr : Z) (left : nat) : access Z :=
  match left with
  | O => Value clr
  | S left' =>
      then_ (subscript c_arr clr) (fun c =>
      if uint_of_uchar c <? 256 then check_colors c_arr (clr + 1) left'
      else Value clr)
  end.

(** [while(clr < chans)
      { super->at< cv::Vec<uchar, C> >(row, col)[clr] = c_arr[clr]; ++clr; }] *)
Fixpoint put_colors (m : Mat) (row col : Z) (c_arr : list uchar)
                    (clr : Z) (left : nat) : access Mat :=
  match left with
  | O => Value m
  | S left' =>
      then_ (subscript c_arr clr) (fun c =>
      then_ (at_put m row col clr c) (fun m' =>
      put_colors m' row col c_arr (clr + 1) left'))
  end.

(** [setPixel(uint row, uint col, const uchar c_arr[])] returns its
    [bool] and the object as it leaves it. *)
Definition setPixel (this : Image) (row col : Z) (c_arr : list uchar)
  : access (bool * Image) :=
  if negb (initialized this) || negb (dimInRange this (to_int row) (to_int col))
  then Value (false, this) else
  match super this with
  | Some m =>
      let chans := channels m in
      then_ (check_colors c_arr 0 (Z.to_nat chans)) (fun clr =>
      if negb (clr =? chans) then Value (false, this) else
      match channels m with
      | 1 | 2 | 3 | 4 | 5 =>
          then_ (put_colors m (to_int row) (to_int col) c_arr 0 (Z.to_nat chans))
                (fun m' => Value (true, mkImage (filename this) (Some m')))
      | _ => Value (false, this)
      end)
  | None => Value (false, this)
  end.

(** [for(; px_clr < C; ++px_clr) px_sum += static_cast<uint>(pixel[px_clr]);]
    on [uint]. *)
Fixpoint sum_channels (pixel : Z -> uchar) (px_clr : Z) (left : nat) (px_sum : Z) : Z :=
  match left with
  | O => px_sum
  | S left' =>
      sum_channels pixel (px_clr + 1) left'
                   (to_uint (px_sum + uint_of_uchar (pixel px_clr)))
  end.

(** [getPixelIntensity<C>(uint row, uint col)], [C] at least 1.  The
    [double] it returns is always a whole number, given here as such. *)
Definition getPixelIntensity (C : positive) (this : Image) (row col : Z)
  : access Z :=
  if negb (dimInRange this (to_int row) (to_int col)) then Value (-2) else
  match super this with
  | Some m =>
      if negb (Z.pos C =? to_uint (channels m)) then Value (-1) else
      then_ (at_ m (to_int row) (to_int col)) (fun pixel =>
      let px_sum := sum_channels pixel 0 (Pos.to_nat C) 0 in
      Value (px_sum / Z.pos C))
  | None => Value (-1)
  end.

End Raster.

(** What the filename logic sees of an object with pixels. *)
Definition plain (this : Raster.Image) : Image :=
  mkImage (Raster.filename this)
    (match Raster.super this with
     | Some m => Some (mkMat (match Raster.data m with
                              | Some _ => true
                              | None => false
                              end))
     | None => None
     end).

(** ** Vocabulary of the statements *)

(** The shapes of filenames the properties speak about, each as a test
    that can be run and as the proposition the proofs work with. *)

(** No dot among the characters. *)
Definition has_dot (t : str) : bool := existsb is_dot t.

Definition dotless (t : str) : Prop := ~ In "."%char t.

(** Decimal digits only. *)
Definition digits_only (d : str) : bool := forallb isdigit d.

Definition all_digits (d : str) : Prop := Forall (fun c => isdigit c = true) d.

(** What may stand in front of a run of digits that [collect_digits]
    has read completely: nothing, or a string ending in a character
    that is no digit. *)
Definition ends_with_digit (p : str) : bool :=
  match rev p with
  | c :: _ => isdigit c
  | [] => false
  end.

Definition digit_boundary (p : str) : Prop :=
  p = [] \/ exists p' c, p = p' ++ [c] /\ isdigit c = false.

(** A stem closed by an underscore, with something in front of the
    underscore. *)
Definition closes_stem (p : str) : bool :=
  match rev p with
  | c :: _ :: _ => is_underscore c
  | _ => false
  end.

Definition underscore_stem (P : str) : Prop :=
  exists P', P' <> [] /\ P = P' ++ ["_"%char].

(** The characters of a decimal numeral, and one step of reading them. *)
Definition uint_chars (d : Decimal.uint) : str :=
  list_ascii_of_string (NilEmpty.string_of_uint d).

Definition decimal_step (acc : Z) (c : ascii) : Z := 10 * acc + digit_value c.

(** An image that has been opened, as [saveImage] and [addExtension]
    require it. *)
Definition opened (name : string) : Image :=
  mkImage (lit name) (Some (mkMat true)).

(** The extension stands in the table. *)
Definition in_table (e : str) : bool :=
  existsb (fun ft => equal e (ext ft)) VALID_EXTENSIONS.

(** The name of the last of [n] copies made one of the other, as the
    copy constructor names them: [generateFilename] applied [n] times. *)
Fixpoint nth_generation (n : nat) (seed : str) : outcome str :=
  match n with
  | O => Ret seed
  | S n' => name <- generateFilename seed ;; nth_generation n' name
  end.

(** The sum of the first [n] channel values of a pixel. *)
Definition channel_sum (pixel : Z -> Raster.uchar) (n : nat) : Z :=
  fold_right Z.add 0
    (map (fun k => Raster.uint_of_uchar (pixel (Z.of_nat k))) (seq 0 n)).

(** Contents of a matrix, all zero. *)
Definition black : Z -> Z -> Z -> Raster.uchar := fun _ _ _ => Byte.x00.

(** Contents with 1 in channel 0 and 2 in the other channels. *)
Definition two_tone : Z -> Z -> Z -> Raster.uchar :=
  fun _ _ k => if k =? 0 then Byte.x01 else Byte.x02.

(** A matrix with data and the object that holds it. *)
Definition raster (rows cols channels : Z) (px : Z -> Z -> Z -> Raster.uchar)
  : Raster.Image :=
  Raster.mkImage (lit "raster.png")
    (Some (Raster.mkMat rows cols channels (Some px))).

(** * Properties of the embedding *)

(** ** Characters and strings *)

Lemma is_dot_true c : is_dot c = true <-> c = "."%char.
Proof. unfold is_dot. apply Ascii.eqb_eq. Qed.

Lemma is_dot_false c : is_dot c = false <-> c <> "."%char.
Proof. unfold is_dot. apply Ascii.eqb_neq. Qed.

Lemma dotless_nil : dotless [].
Proof. intros H. inversion H. Qed.

Lemma dotless_cons c t : dotless (c :: t) <-> is_dot c = false /\ dotless t.
Proof.
  unfold dotless. rewrite is_dot_false. simpl. split.
  - intros H. split; intros K; apply H; [left; congruence | right; exact K].
  - intros [Hc Ht] [K | K]; [apply Hc; congruence | exact (Ht K)].
Qed.

Lemma dotless_in t c : dotless t -> In c t -> is_dot c = false.
Proof.
  intros Ht Hc. apply is_dot_false. intros ->. exact (Ht Hc).
Qed.

Lemma equal_eq s t : equal s t = true <-> s = t.
Proof.
  revert t. induction s as [|c s IH]; intros [|d t]; simpl;
    try (split; [discriminate | congruence]); try tauto.
  rewrite andb_true_iff, Ascii.eqb_eq, IH. split.
  - intros [-> ->]. reflexivity.
  - intros H. inversion H. auto.
Qed.

Lemma size_app s t : size (s ++ t) = size s + size t.
Proof. unfold size. rewrite length_app. lia. Qed.

Lemma size_cons c s : size (c :: s) = 1 + size s.
Proof. unfold size. cbn [length]. lia. Qed.

Lemma size_nil : size [] = 0.
Proof. reflexivity. Qed.

(** Sizes of concatenations, as sums. *)
Ltac sizes :=
  repeat first [rewrite size_app | rewrite size_cons | rewrite size_nil];
  try lia.

Lemma size_nonneg s : 0 <= size s.
Proof. unfold size. lia. Qed.

Lemma size_pos s : s <> [] -> 0 < size s.
Proof. destruct s; [congruence | rewrite size_cons; pose proof (size_nonneg s); lia]. Qed.

Lemma nth_error_middle (X : str) c t : nth_error (X ++ c :: t) (length X) = Some c.
Proof. induction X; simpl; auto. Qed.

Lemma nth_error_after (X : str) d t k :
  nth_error (X ++ d :: t) (length X + S k) = nth_error t k.
Proof. induction X; simpl; auto. Qed.

Lemma at_nth s n c : nth_error s n = Some c -> at_ s (Z.of_nat n) = Ret c.
Proof.
  intros H. unfold at_, in_range, size.
  assert (n < length s)%nat by (apply nth_error_Some; congruence).
  replace ((0 <=? Z.of_nat n) && (Z.of_nat n <? Z.of_nat (length s))) with true.
  - rewrite Nat2Z.id, H. reflexivity.
  - symmetry. apply andb_true_iff. split; [apply Z.leb_le | apply Z.ltb_lt]; lia.
Qed.

Lemma at_negative s i : i < 0 -> at_ s i = Throw std_out_of_range.
Proof.
  intros H. unfold at_, in_range.
  replace (0 <=? i) with false by (symmetry; apply Z.leb_gt; exact H).
  reflexivity.
Qed.

Lemma at_middle (X : str) c t : at_ (X ++ c :: t) (size X) = Ret c.
Proof. apply at_nth, nth_error_middle. Qed.

Lemma up_to_end_true s pos : 0 <= pos <= size s -> up_to_end s pos = true.
Proof.
  intros H. unfold up_to_end. apply andb_true_iff.
  split; apply Z.leb_le; lia.
Qed.

(** Every string is dotless or splits at its last dot. *)
Lemma last_dot_split (s : str) :
  dotless s \/ exists X t, s = X ++ "."%char :: t /\ dotless t.
Proof.
  induction s as [|c s [IH | (X & t & -> & Ht)]].
  - left. apply dotless_nil.
  - destruct (is_dot c) eqn:E.
    + right. apply is_dot_true in E. subst c. exists [], s. auto.
    + left. apply dotless_cons. auto.
  - right. exists (c :: X), t. auto.
Qed.

(** Every string splits into what precedes its trailing digits and
    those digits. *)
Lemma trailing_digits_split (X : str) :
  exists P D, X = P ++ D /\ all_digits D /\ digit_boundary P.
Proof.
  induction X as [|c X (P & D & -> & HD & HP)] using rev_ind.
  - exists [], []. repeat split; [constructor | left; reflexivity].
  - destruct (isdigit c) eqn:E.
    + exists P, (D ++ [c]). rewrite app_assoc. repeat split; auto.
      apply Forall_app. split; [exact HD | constructor; [exact E | constructor]].
    + exists ((P ++ D) ++ [c]), []. rewrite app_nil_r. repeat split.
      * constructor.
      * right. exists (P ++ D), c. auto.
Qed.

(** ** The loops *)

(** One iteration of each loop, by what it reads. *)

Lemma locate_dot_unguarded_hit s n :
  nth_error s n = Some "."%char ->
  locate_dot_unguarded s n = Ret (Z.of_nat n).
Proof.
  intros H. destruct n; cbn [locate_dot_unguarded];
    rewrite (at_nth _ _ _ H); reflexivity.
Qed.

Lemma locate_dot_unguarded_step s n c :
  nth_error s (S n) = Some c -> is_dot c = false ->
  locate_dot_unguarded s (S n) = locate_dot_unguarded s n.
Proof.
  intros H Hc. cbn [locate_dot_unguarded].
  rewrite (at_nth _ _ _ H). cbn [bind]. rewrite Hc. reflexivity.
Qed.

Lemma locate_dot_unguarded_front s c :
  nth_error s 0 = Some c -> is_dot c = false ->
  locate_dot_unguarded s 0 = Throw std_out_of_range.
Proof.
  intros H Hc. cbn [locate_dot_unguarded].
  rewrite (at_nth _ _ _ H). cbn [bind]. rewrite Hc.
  rewrite at_negative by lia. reflexivity.
Qed.

Lemma locate_dot_hit s n :
  nth_error s (S n) = Some "."%char ->
  locate_dot s (S n) = Ret (Z.of_nat (S n)).
Proof.
  intros H. cbn [locate_dot]. rewrite (at_nth _ _ _ H). reflexivity.
Qed.

Lemma locate_dot_step s n c :
  nth_error s (S n) = Some c -> is_dot c = false ->
  locate_dot s (S n) = locate_dot s n.
Proof.
  intros H Hc. cbn [locate_dot].
  rewrite (at_nth _ _ _ H). cbn [bind]. rewrite Hc. reflexivity.
Qed.

Lemma collect_digits_stop seed n c acc :
  nth_error seed n = Some c -> isdigit c = false ->
  collect_digits seed n acc = Ret (Z.of_nat n, acc).
Proof.
  intros H Hc. destruct n; cbn [collect_digits];
    rewrite (at_nth _ _ _ H); cbn [bind]; rewrite Hc; reflexivity.
Qed.

Lemma collect_digits_step seed n c acc :
  nth_error seed (S n) = Some c -> isdigit c = true ->
  collect_digits seed (S n) acc = collect_digits seed n (c :: acc).
Proof.
  intros H Hc. cbn [collect_digits].
  rewrite (at_nth _ _ _ H). cbn [bind]. rewrite Hc. reflexivity.
Qed.

Lemma collect_digits_front seed c acc :
  nth_error seed 0 = Some c -> isdigit c = true ->
  collect_digits seed 0 acc = Ret (-1, c :: acc).
Proof.
  intros H Hc. cbn [collect_digits].
  rewrite (at_nth _ _ _ H). cbn [bind]. rewrite Hc. reflexivity.
Qed.

(** Started at or behind the last dot, the unguarded scan stops on it. *)
Lemma locate_dot_unguarded_found X t k :
  dotless t -> (k <= length t)%nat ->
  locate_dot_unguarded (X ++ "."%char :: t) (length X + k) = Ret (size X).
Proof.
  intros Ht. induction k as [|k IH]; intros Hk.
  - rewrite Nat.add_0_r. apply locate_dot_unguarded_hit, nth_error_middle.
  - destruct (nth_error t k) as [c|] eqn:E;
      [| apply nth_error_None in E; lia].
    rewrite Nat.add_succ_r.
    rewrite (locate_dot_unguarded_step _ _ c).
    + apply IH. lia.
    + rewrite <- Nat.add_succ_r, nth_error_after. exact E.
    + exact (dotless_in t c Ht (nth_error_In _ _ E)).
Qed.

(** On a string without a dot the unguarded scan runs off the front. *)
Lemma locate_dot_unguarded_dotless s n :
  dotless s -> (n < length s)%nat ->
  locate_dot_unguarded s n = Throw std_out_of_range.
Proof.
  intros Hs. induction n as [|n IH]; intros Hn.
  - destruct (nth_error s 0) as [c|] eqn:E;
      [| apply nth_error_None in E; lia].
    apply (locate_dot_unguarded_front s c E).
    exact (dotless_in s c Hs (nth_error_In _ _ E)).
  - destruct (nth_error s (S n)) as [c|] eqn:E;
      [| apply nth_error_None in E; lia].
    rewrite (locate_dot_unguarded_step s n c E).
    + apply IH. lia.
    + exact (dotless_in s c Hs (nth_error_In _ _ E)).
Qed.

(** The guarded scan stops on the last dot too, and at 0 when that dot
    is the first character. *)
Lemma locate_dot_found X t k :
  dotless t -> (k <= length t)%nat ->
  locate_dot (X ++ "."%char :: t) (length X + k) = Ret (size X).
Proof.
  intros Ht. induction k as [|k IH]; intros Hk.
  - rewrite Nat.add_0_r. destruct X as [|x X]; [reflexivity|].
    apply (locate_dot_hit ((x :: X) ++ "."%char :: t) (length X)).
    apply (nth_error_middle (x :: X)).
  - destruct (nth_error t k) as [c|] eqn:E;
      [| apply nth_error_None in E; lia].
    rewrite Nat.add_succ_r.
    rewrite (locate_dot_step _ _ c).
    + apply IH. lia.
    + rewrite <- Nat.add_succ_r, nth_error_after. exact E.
    + exact (dotless_in t c Ht (nth_error_In _ _ E)).
Qed.

(** With no dot behind the first character the guarded scan ends at 0. *)
Lemma locate_dot_none c t k :
  dotless t -> (k <= length t)%nat -> locate_dot (c :: t) k = Ret 0.
Proof.
  intros Ht. induction k as [|k IH]; intros Hk; [reflexivity|].
  destruct (nth_error t k) as [d|] eqn:E;
    [| apply nth_error_None in E; lia].
  rewrite (locate_dot_step (c :: t) k d E).
  - apply IH. lia.
  - exact (dotless_in t d Ht (nth_error_In _ _ E)).
Qed.

(** The digit scan reads a whole run of digits and stops in front of it. *)
Lemma collect_digits_run D : forall P R acc,
  all_digits D -> D <> [] -> digit_boundary P ->
  collect_digits (P ++ D ++ R) (length P + length D - 1) acc
  = Ret (size P - 1, D ++ acc).
Proof.
  induction D as [|d D IH] using rev_ind; intros P R acc HD Hne HP;
    [congruence|].
  apply Forall_app in HD. destruct HD as [HD Hd].
  inversion Hd as [|? ? Hd' _]; subst.
  rewrite <- app_assoc. cbn [app].
  rewrite length_app. cbn [length].
  replace (length P + (length D + 1) - 1)%nat with (length P + length D)%nat by lia.
  assert (Hnth : nth_error (P ++ D ++ d :: R) (length P + length D) = Some d).
  { rewrite app_assoc, <- length_app. apply nth_error_middle. }
  destruct (length P + length D)%nat as [|m] eqn:Em.
  - assert (length P = 0%nat) by lia. assert (length D = 0%nat) by lia.
    destruct P; [|discriminate]. destruct D; [|discriminate].
    rewrite (collect_digits_front _ d acc Hnth Hd'). reflexivity.
  - rewrite (collect_digits_step _ m d acc Hnth Hd').
    destruct D as [|d0 D0].
    + destruct HP as [-> | (P' & c & -> & Hc)]; [discriminate|].
      rewrite length_app in Em. cbn [length] in Em.
      assert (m = length P') by lia. subst m.
      rewrite <- app_assoc. cbn [app].
      rewrite (collect_digits_stop _ _ c) by (apply nth_error_middle || exact Hc).
      unfold size. rewrite length_app. cbn [length]. f_equal. f_equal. lia.
    + replace m with (length P + length (d0 :: D0) - 1)%nat by lia.
      rewrite (IH P (d :: R) (d :: acc) HD); [| discriminate | exact HP].
      rewrite <- app_assoc. reflexivity.
Qed.

(** ** The string operations at the places Image.cpp uses them *)

(** Two spellings of one concatenation. *)
Ltac same_string :=
  repeat (progress (rewrite <- ?app_assoc; cbn [app]));
  reflexivity.

Lemma skipn_prefix (X e : str) : skipn (length X) (X ++ e) = e.
Proof. induction X; simpl; auto. Qed.

Lemma firstn_prefix (X e : str) : firstn (length X) (X ++ e) = X.
Proof. induction X; simpl; congruence. Qed.

Lemma to_nat_size (s : str) : Z.to_nat (size s) = length s.
Proof. unfold size. apply Nat2Z.id. Qed.

Lemma span_rest X e n :
  size e <= n -> span (X ++ e) (size X) n = length e.
Proof.
  intros H. unfold span. pose proof (size_nonneg e).
  replace (n <? 0) with false by (symmetry; apply Z.ltb_ge; lia).
  rewrite size_app, Z.min_r by lia.
  replace (size X + size e - size X) with (size e) by lia.
  apply to_nat_size.
Qed.

Lemma substr_suffix X e n :
  size e <= n -> substr (X ++ e) (size X) n = Ret e.
Proof.
  intros H. unfold substr.
  rewrite up_to_end_true
    by (rewrite size_app; pose proof (size_nonneg X); pose proof (size_nonneg e); lia).
  rewrite span_rest by exact H.
  rewrite to_nat_size, skipn_prefix, firstn_all. reflexivity.
Qed.

Lemma erase_suffix X e : erase (X ++ e) (size X) (size e) = Ret X.
Proof.
  unfold erase.
  rewrite up_to_end_true
    by (rewrite size_app; pose proof (size_nonneg X); pose proof (size_nonneg e); lia).
  rewrite span_rest by lia.
  rewrite to_nat_size, firstn_prefix, <- length_app, skipn_all, app_nil_r.
  reflexivity.
Qed.

Lemma insert_between X e t : insert (X ++ e) (size X) t = Ret (X ++ t ++ e).
Proof.
  unfold insert.
  rewrite up_to_end_true
    by (rewrite size_app; pose proof (size_nonneg X); pose proof (size_nonneg e); lia).
  rewrite to_nat_size, firstn_prefix, skipn_prefix. reflexivity.
Qed.

Lemma replace_between P M e t :
  replace (P ++ M ++ e) (size P) (size M) t = Ret (P ++ t ++ e).
Proof.
  unfold replace.
  rewrite up_to_end_true
    by (rewrite !size_app; pose proof (size_nonneg P);
        pose proof (size_nonneg M); pose proof (size_nonneg e); lia).
  assert (Hspan : span (P ++ M ++ e) (size P) (size M) = length M).
  { unfold span. pose proof (size_nonneg M). pose proof (size_nonneg e).
    replace (size M <? 0) with false by (symmetry; apply Z.ltb_ge; lia).
    rewrite !size_app, Z.min_l by lia. apply to_nat_size. }
  rewrite Hspan, to_nat_size, firstn_prefix.
  rewrite <- length_app, (app_assoc P M e), skipn_prefix. reflexivity.
Qed.

(** ** [hasValidExtension] by the shape of the filename *)

Lemma hasValidExtension_empty : hasValidExtension [] = Ret (-3).
Proof. reflexivity. Qed.

(** A filename with no dot at all: the scan for the dot leaves the
    string and [at] throws. *)
Lemma hasValidExtension_dotless s :
  s <> [] -> dotless s -> hasValidExtension s = Throw std_out_of_range.
Proof.
  intros Hne Hs. unfold hasValidExtension.
  destruct s as [|c s]; [congruence|]. cbn [empty].
  rewrite locate_dot_unguarded_dotless; [reflexivity | exact Hs |].
  rewrite size_cons. cbn [length]. unfold size. lia.
Qed.

Lemma scan_start X t :
  Z.to_nat (size (X ++ "."%char :: t) - 1) = (length X + length t)%nat.
Proof. rewrite size_app, size_cons. unfold size. lia. Qed.

(** The last dot is the first character: code -2. *)
Lemma hasValidExtension_leading_dot t :
  dotless t -> hasValidExtension ("."%char :: t) = Ret (-2).
Proof.
  intros Ht. unfold hasValidExtension. cbn [empty].
  pose proof (scan_start [] t) as E.
  pose proof (locate_dot_unguarded_found [] t (length t) Ht (le_n _)) as F.
  cbn [app length Nat.add] in E, F. rewrite E, F.
  reflexivity.
Qed.

(** Something precedes the last dot: the suffix from that dot on is
    looked up in the table. *)
Lemma hasValidExtension_split X t :
  X <> [] -> dotless t ->
  hasValidExtension (X ++ "."%char :: t)
  = Ret (search_table ("."%char :: t) VALID_EXTENSIONS 0).
Proof.
  intros HX Ht. unfold hasValidExtension.
  replace (empty (X ++ "."%char :: t)) with false by (destruct X; reflexivity).
  rewrite scan_start.
  rewrite (locate_dot_unguarded_found X t (length t) Ht (le_n _)).
  cbn [bind]. pose proof (size_pos X HX).
  replace (size X =? 0) with false by (symmetry; apply Z.eqb_neq; lia).
  rewrite substr_suffix by (rewrite size_app; lia).
  reflexivity.
Qed.

(** ** The table *)

Lemma table_entries i ft :
  nth_error VALID_EXTENSIONS i = Some ft ->
  (i < 6)%nat /\ In ft VALID_EXTENSIONS.
Proof.
  intros H. split.
  - change 6%nat with (length VALID_EXTENSIONS).
    apply nth_error_Some. congruence.
  - exact (nth_error_In _ _ H).
Qed.

Lemma table_ext_shape ft :
  In ft VALID_EXTENSIONS ->
  exists t, ext ft = "."%char :: t /\ dotless t.
Proof.
  intros H.
  assert (Hall : Forall (fun ft => exists t, ext ft = "."%char :: t /\ dotless t)
                        VALID_EXTENSIONS).
  { repeat constructor;
      (eexists; split; [reflexivity |
        cbn; intros K; repeat (destruct K as [K | K]; [discriminate K|]); exact K]). }
  rewrite Forall_forall in Hall. exact (Hall ft H).
Qed.

(** The search returns the position of the entry it is given ... *)
Lemma search_table_hit i ft :
  nth_error VALID_EXTENSIONS i = Some ft ->
  search_table (ext ft) VALID_EXTENSIONS 0 = Z.of_nat i.
Proof.
  intros H.
  do 6 (destruct i as [|i]; [injection H as <-; reflexivity|]).
  destruct i; discriminate H.
Qed.

(** ... and whatever it returns from 0 up is the position of an entry
    that matches. *)
Lemma search_table_sound e rest idx r :
  search_table e rest idx = r -> 0 <= idx -> r <> -1 ->
  idx <= r /\ exists ft, nth_error rest (Z.to_nat (r - idx)) = Some ft /\ ext ft = e.
Proof.
  revert idx. induction rest as [|ft rest IH]; intros idx H Hidx Hr; cbn in H.
  - congruence.
  - destruct (equal e (ext ft)) eqn:E.
    + subst r. split; [lia|]. rewrite Z.sub_diag. exists ft.
      apply equal_eq in E. auto.
    + destruct (IH (idx + 1) H ltac:(lia) Hr) as (Hle & ft' & Hn & He).
      split; [lia|]. exists ft'. split; [|exact He].
      replace (Z.to_nat (r - idx)) with (S (Z.to_nat (r - (idx + 1)))) by lia.
      exact Hn.
Qed.

Lemma search_table_range e r :
  search_table e VALID_EXTENSIONS 0 = r ->
  r = -1 \/ (0 <= r < EXTENSION_COUNT /\
             exists ft, nth_error VALID_EXTENSIONS (Z.to_nat r) = Some ft /\ ext ft = e).
Proof.
  intros <-. set (r := search_table e VALID_EXTENSIONS 0).
  destruct (Z.eq_dec r (-1)) as [E | E]; [left; exact E | right].
  destruct (search_table_sound e VALID_EXTENSIONS 0 r eq_refl (Z.le_refl 0) E)
    as (Hle & ft & Hn & He).
  rewrite Z.sub_0_r in Hn.
  split; [| exists ft; auto].
  split; [exact Hle|].
  assert (Z.to_nat r < length VALID_EXTENSIONS)%nat
    by (apply nth_error_Some; congruence).
  cbn [length VALID_EXTENSIONS] in H. unfold EXTENSION_COUNT. lia.
Qed.

(** What [hasValidExtension] says about a filename it accepts. *)
Lemma hasValidExtension_valid_inv s i :
  hasValidExtension s = Ret i -> 0 <= i ->
  exists X t ft,
    s = X ++ "."%char :: t /\ X <> [] /\ dotless t /\
    i = search_table ("."%char :: t) VALID_EXTENSIONS 0 /\
    i < EXTENSION_COUNT /\
    nth_error VALID_EXTENSIONS (Z.to_nat i) = Some ft /\
    ext ft = "."%char :: t.
Proof.
  intros H Hi.
  destruct s as [|c s]; [cbn in H; injection H as <-; lia|].
  destruct (last_dot_split (c :: s)) as [Hs | (X & t & E & Ht)].
  - rewrite hasValidExtension_dotless in H by (congruence || exact Hs).
    discriminate H.
  - rewrite E in *. destruct X as [|x X].
    + cbn [app] in H. rewrite hasValidExtension_leading_dot in H by exact Ht.
      injection H as <-. lia.
    + rewrite hasValidExtension_split in H by (congruence || exact Ht).
      assert (K0 : search_table ("."%char :: t) VALID_EXTENSIONS 0 = i)
        by congruence.
      destruct (search_table_range _ _ K0) as [K | (Hr & ft & Hn & He)].
      * lia.
      * exists (x :: X), t, ft.
        repeat split; auto; try congruence; lia.
Qed.

(** ** [removeExtension] and [addExtension] by the shape of the filename *)

Lemma removeExtension_split X t :
  X <> [] -> dotless t ->
  removeExtension (X ++ "."%char :: t) = Ret (true, X).
Proof.
  intros HX Ht. unfold removeExtension.
  replace (empty (X ++ "."%char :: t)) with false by (destruct X; reflexivity).
  rewrite scan_start.
  rewrite (locate_dot_found X t (length t) Ht (le_n _)).
  cbn [bind]. pose proof (size_pos X HX).
  replace (size X =? 0) with false by (symmetry; apply Z.eqb_neq; lia).
  replace (size (X ++ "."%char :: t) - size X) with (size ("."%char :: t))
    by (rewrite size_app; lia).
  rewrite erase_suffix. reflexivity.
Qed.

Lemma removeExtension_none s :
  dotless (tl s) -> removeExtension s = Ret (false, s).
Proof.
  intros Hs. destruct s as [|c t]; [reflexivity|]. cbn [tl] in Hs.
  unfold removeExtension. cbn [empty].
  rewrite (locate_dot_none c t) ; [reflexivity | exact Hs |].
  rewrite size_cons. unfold size. lia.
Qed.

(** A filename has no dot behind its first character, or splits at its
    last dot with something in front. *)
Lemma extension_boundary (s : str) :
  dotless (tl s) \/ exists X t, s = X ++ "."%char :: t /\ X <> [] /\ dotless t.
Proof.
  destruct s as [|c s]; [left; apply dotless_nil|]. cbn [tl].
  destruct (last_dot_split s) as [Hs | (X & t & -> & Ht)]; [left; exact Hs|].
  right. exists (c :: X), t. repeat split; [discriminate | exact Ht].
Qed.

Lemma removeExtension_returns s : returns (removeExtension s).
Proof.
  destruct (extension_boundary s) as [Hs | (X & t & -> & HX & Ht)].
  - rewrite removeExtension_none by exact Hs. eexists; reflexivity.
  - rewrite removeExtension_split by assumption. eexists; reflexivity.
Qed.

Lemma addExtension_uninitialized this f :
  initialized this = false -> addExtension this f = Ret (false, f).
Proof. intros H. unfold addExtension. rewrite H. reflexivity. Qed.

Lemma addExtension_split this X t :
  initialized this = true -> X <> [] -> dotless t ->
  addExtension this (X ++ "."%char :: t) = Ret (true, X ++ lit ".png").
Proof.
  intros H HX Ht. unfold addExtension. rewrite H. cbn [negb].
  rewrite removeExtension_split by assumption. reflexivity.
Qed.

Lemma addExtension_none this f :
  initialized this = true -> dotless (tl f) ->
  addExtension this f = Ret (true, f ++ lit ".png").
Proof.
  intros H Hf. unfold addExtension. rewrite H. cbn [negb].
  rewrite removeExtension_none by assumption. reflexivity.
Qed.

Lemma addExtension_returns this f : returns (addExtension this f).
Proof.
  destruct (initialized this) eqn:E.
  - destruct (extension_boundary f) as [Hs | (X & t & -> & HX & Ht)].
    + rewrite addExtension_none by assumption. eexists; reflexivity.
    + rewrite addExtension_split by assumption. eexists; reflexivity.
  - rewrite addExtension_uninitialized by exact E. eexists; reflexivity.
Qed.

(** ** [generateFilename] by the shape of the seed *)

Lemma leading_digits_all D : all_digits D -> leading_digits D = D.
Proof.
  induction 1 as [|c D Hc _ IH]; [reflexivity|].
  cbn [leading_digits]. rewrite Hc, IH. reflexivity.
Qed.

Lemma stoi_digits D :
  all_digits D -> D <> [] ->
  stoi D = if decimal_value D <=? INT_MAX then Ret (decimal_value D)
           else Throw std_out_of_range.
Proof.
  intros HD Hne. unfold stoi. rewrite leading_digits_all by exact HD.
  destruct D; [congruence | reflexivity].
Qed.

(** Past its entry test, on a seed with a stem [X] and an accepted
    extension, the function is left with the search for an earlier
    modification. *)
Lemma generateFilename_accepted X t :
  X <> [] -> dotless t ->
  0 <= search_table ("."%char :: t) VALID_EXTENSIONS 0 ->
  generateFilename (X ++ "."%char :: t) =
  (let seed := X ++ "."%char :: t in
   let ext_ch := size X in
   let mod_ch := ext_ch - 1 in
   c <- at_ seed mod_ch ;;
   if isdigit c then
     '(mod_ch, mod_) <- collect_digits seed (Z.to_nat mod_ch) [] ;;
     complete <- (if mod_ch >? 0
                  then d <- at_ seed mod_ch ;; Ret (is_underscore d)
                  else Ret false) ;;
     if complete then
       n <- stoi mod_ ;;
       n1 <- int_add n 1 ;;
       let mod_ := lit "_" ++ to_string n1 in
       replace seed mod_ch (ext_ch - mod_ch) mod_
     else Ret seed
   else insert seed ext_ch (lit "_1")).
Proof.
  intros HX Ht Hv. unfold generateFilename.
  replace (empty (X ++ "."%char :: t)) with false by (destruct X; reflexivity).
  rewrite hasValidExtension_split by assumption. cbn [bind].
  replace (search_table ("."%char :: t) VALID_EXTENSIONS 0 >=? 0) with true
    by (symmetry; apply Z.geb_le; lia).
  cbn [negb]. rewrite scan_start.
  rewrite (locate_dot_found X t (length t) Ht (le_n _)).
  reflexivity.
Qed.

(** No digit in front of the extension: "_1" goes in there. *)
Lemma generateFilename_first X c t :
  isdigit c = false -> dotless t ->
  0 <= search_table ("."%char :: t) VALID_EXTENSIONS 0 ->
  generateFilename ((X ++ [c]) ++ "."%char :: t)
  = Ret ((X ++ [c]) ++ lit "_1" ++ "."%char :: t).
Proof.
  intros Hc Ht Hv.
  rewrite generateFilename_accepted by (assumption || (destruct X; discriminate)).
  cbv zeta.
  replace (size (X ++ [c]) - 1) with (size X)
    by sizes.
  rewrite <- (app_assoc X [c]) at 1. cbn [app].
  rewrite at_middle. cbn [bind]. rewrite Hc.
  apply insert_between.
Qed.

(** Digits in front of the extension, and in front of them a stem
    closed by an underscore: the number is parsed, incremented and put
    back. *)
Lemma generateFilename_again P D t :
  P <> [] -> D <> [] -> all_digits D -> dotless t ->
  0 <= search_table ("."%char :: t) VALID_EXTENSIONS 0 ->
  generateFilename (P ++ "_"%char :: D ++ "."%char :: t) =
  (n <- stoi D ;;
   n1 <- int_add n 1 ;;
   Ret (P ++ "_"%char :: to_string n1 ++ "."%char :: t)).
Proof.
  intros HP HD Hdig Ht Hv.
  set (e := "."%char :: t).
  assert (Hseed : P ++ "_"%char :: D ++ e = ((P ++ ["_"%char]) ++ D) ++ e)
    by same_string.
  rewrite Hseed at 1. unfold e at 1.
  rewrite generateFilename_accepted;
    [| destruct P; discriminate | exact Ht | exact Hv].
  cbv zeta. fold e.
  destruct (exists_last HD) as (D' & d & ->).
  assert (Hd : isdigit d = true).
  { apply Forall_app in Hdig. destruct Hdig as [_ Hd]. inversion Hd; auto. }
  assert (Hat : at_ (((P ++ ["_"%char]) ++ D' ++ [d]) ++ e)
                    (size ((P ++ ["_"%char]) ++ D' ++ [d]) - 1) = Ret d).
  { replace (size ((P ++ ["_"%char]) ++ D' ++ [d]) - 1)
      with (size ((P ++ ["_"%char]) ++ D'))
      by sizes.
    replace (((P ++ ["_"%char]) ++ D' ++ [d]) ++ e)
      with (((P ++ ["_"%char]) ++ D') ++ d :: e)
      by same_string.
    apply at_middle. }
  rewrite Hat. cbn [bind]. rewrite Hd.
  replace (Z.to_nat (size ((P ++ ["_"%char]) ++ D' ++ [d]) - 1))
    with (length (P ++ ["_"%char]) + length (D' ++ [d]) - 1)%nat
    by (unfold size; rewrite !length_app; cbn [length]; lia).
  rewrite <- (app_assoc (P ++ ["_"%char]) (D' ++ [d]) e).
  rewrite collect_digits_run;
    [| exact Hdig | exact HD | right; exists P, "_"%char; auto].
  cbn [bind]. rewrite app_nil_r.
  pose proof (size_pos P HP) as HPpos.
  replace (size (P ++ ["_"%char]) - 1) with (size P)
    by sizes.
  replace (size P >? 0) with true by (symmetry; apply Z.gtb_lt; lia).
  replace ((P ++ ["_"%char]) ++ (D' ++ [d]) ++ e)
    with (P ++ "_"%char :: (D' ++ [d]) ++ e)
    by same_string.
  rewrite (at_middle P "_"%char ((D' ++ [d]) ++ e)).
  cbn [bind]. change (is_underscore "_"%char) with true. cbv iota.
  destruct (stoi (D' ++ [d])) as [n| |]; cbn [bind]; try reflexivity.
  destruct (int_add n 1) as [n1| |]; cbn [bind]; try reflexivity.
  replace (size ((P ++ ["_"%char]) ++ D' ++ [d]) - size P)
    with (size ("_"%char :: D' ++ [d]))
    by sizes.
  change (P ++ "_"%char :: (D' ++ [d]) ++ e)
    with (P ++ ("_"%char :: D' ++ [d]) ++ e).
  rewrite replace_between. reflexivity.
Qed.

Lemma classic_underscore_stem P : underscore_stem P \/ ~ underscore_stem P.
Proof.
  destruct P as [|c P] using rev_ind; [right; intros (P' & _ & E); destruct P'; discriminate|].
  clear IHP. destruct P as [|p P].
  - right. intros (P' & HP' & E). destruct P' as [|? [|? ?]]; try congruence;
      discriminate E.
  - destruct (is_underscore c) eqn:E.
    + left. apply Ascii.eqb_eq in E. subst c. exists (p :: P).
      split; [discriminate | reflexivity].
    + right. intros (P' & HP' & K). apply app_inj_tail in K.
      destruct K as [_ ->]. discriminate E.
Qed.

(** Digits in front of the extension: after the digit scan the function
    stands in front of the run [D], at [size P - 1]. *)
Lemma generateFilename_digits P D t :
  D <> [] -> all_digits D -> digit_boundary P -> dotless t ->
  0 <= search_table ("."%char :: t) VALID_EXTENSIONS 0 ->
  generateFilename (P ++ D ++ "."%char :: t) =
  (let seed := P ++ D ++ "."%char :: t in
   let mod_ch := size P - 1 in
   complete <- (if mod_ch >? 0
                then d <- at_ seed mod_ch ;; Ret (is_underscore d)
                else Ret false) ;;
   if complete then
     n <- stoi D ;;
     n1 <- int_add n 1 ;;
     replace seed mod_ch (size (P ++ D) - mod_ch) (lit "_" ++ to_string n1)
   else Ret seed).
Proof.
  intros HD Hdig HP Ht Hv.
  set (e := "."%char :: t).
  rewrite (app_assoc P D e) at 1. unfold e at 1.
  rewrite generateFilename_accepted;
    [| destruct P, D; (discriminate || congruence) | exact Ht | exact Hv].
  cbv zeta. fold e.
  destruct (exists_last HD) as (D' & d & ->).
  assert (Hd : isdigit d = true).
  { apply Forall_app in Hdig. destruct Hdig as [_ Hd]. inversion Hd; auto. }
  assert (Hat : at_ ((P ++ D' ++ [d]) ++ e) (size (P ++ D' ++ [d]) - 1) = Ret d).
  { replace (size (P ++ D' ++ [d]) - 1) with (size (P ++ D')) by sizes.
    replace ((P ++ D' ++ [d]) ++ e) with ((P ++ D') ++ d :: e) by same_string.
    apply at_middle. }
  rewrite Hat. cbn [bind]. rewrite Hd.
  replace (Z.to_nat (size (P ++ D' ++ [d]) - 1))
    with (length P + length (D' ++ [d]) - 1)%nat
    by (unfold size; rewrite !length_app; cbn [length]; lia).
  rewrite <- (app_assoc P (D' ++ [d]) e).
  rewrite collect_digits_run by assumption.
  cbn [bind]. rewrite app_nil_r. reflexivity.
Qed.

(** Digits in front of the extension, but no stem closed by an
    underscore in front of them: the seed comes back as it is. *)
Lemma generateFilename_same P D t :
  D <> [] -> all_digits D -> digit_boundary P -> ~ underscore_stem P ->
  dotless t ->
  0 <= search_table ("."%char :: t) VALID_EXTENSIONS 0 ->
  generateFilename (P ++ D ++ "."%char :: t) = Ret (P ++ D ++ "."%char :: t).
Proof.
  intros HD Hdig HP Hno Ht Hv.
  rewrite generateFilename_digits by assumption. cbv zeta.
  destruct HP as [-> | (P' & c & -> & Hc)]; [reflexivity|].
  replace (size (P' ++ [c]) - 1) with (size P') by sizes.
  destruct (size P' >? 0) eqn:Epos; [|reflexivity].
  apply Z.gtb_lt in Epos.
  replace ((P' ++ [c]) ++ D ++ "."%char :: t)
    with (P' ++ c :: D ++ "."%char :: t) by same_string.
  rewrite (at_middle P' c). cbn [bind].
  destruct (is_underscore c) eqn:E; [|reflexivity].
  exfalso. apply Hno. exists P'. split.
  - intros ->. rewrite size_nil in Epos. lia.
  - apply Ascii.eqb_eq in E. subst c. reflexivity.
Qed.

(** A seed without any dot never gets past the entry test: the call of
    [hasValidExtension] throws. *)
Lemma generateFilename_dotless s :
  s <> [] -> dotless s -> generateFilename s = Throw std_out_of_range.
Proof.
  intros Hne Hs. unfold generateFilename.
  destruct s as [|c s]; [congruence|]. cbn [empty].
  rewrite hasValidExtension_dotless by assumption. reflexivity.
Qed.

(** What a call that returns a name has done: the seed had a stem and
    an accepted extension, and the name is a stem with that same
    extension. *)
Lemma generateFilename_shape seed r :
  generateFilename seed = Ret r -> r <> [] ->
  exists X X' t,
    seed = X ++ "."%char :: t /\ r = X' ++ "."%char :: t /\
    X <> [] /\ X' <> [] /\ dotless t /\
    0 <= search_table ("."%char :: t) VALID_EXTENSIONS 0.
Proof.
  intros H Hr.
  destruct (empty seed) eqn:Ee.
  { unfold generateFilename in H. rewrite Ee in H. congruence. }
  destruct (hasValidExtension seed) as [v| |] eqn:Ev;
    try (unfold generateFilename in H; rewrite Ee, Ev in H; discriminate H).
  destruct (v >=? 0) eqn:Eg;
    [| unfold generateFilename in H; rewrite Ee, Ev in H; cbn [bind] in H;
       rewrite Eg in H; cbn [negb] in H; congruence].
  apply Z.geb_le in Eg.
  destruct (hasValidExtension_valid_inv seed v Ev Eg)
    as (X & t & ft & -> & HX & Ht & Hv & _).
  rewrite Hv in Eg.
  destruct (trailing_digits_split X) as (P & D & -> & Hdig & HP).
  destruct D as [|d0 D0].
  - (* no digit in front of the extension *)
    rewrite app_nil_r in *.
    destruct HP as [-> | (P' & c & -> & Hc)]; [congruence|].
    rewrite generateFilename_first in H by assumption.
    injection H as <-.
    exists (P' ++ [c]), ((P' ++ [c]) ++ lit "_1"), t.
    repeat split; auto; try same_string.
    destruct P'; discriminate.
  - set (D := d0 :: D0) in *.
    assert (HD : D <> []) by discriminate.
    destruct (classic_underscore_stem P) as [(P' & HP' & ->) | Hno].
    + replace (((P' ++ ["_"%char]) ++ D) ++ "."%char :: t)
        with (P' ++ "_"%char :: D ++ "."%char :: t) in H by same_string.
      rewrite generateFilename_again in H by assumption.
      destruct (stoi D) as [n| |]; cbn [bind] in H; try discriminate H.
      destruct (int_add n 1) as [n1| |]; cbn [bind] in H; try discriminate H.
      injection H as <-.
      exists ((P' ++ ["_"%char]) ++ D), (P' ++ "_"%char :: to_string n1), t.
      repeat split; auto; try same_string.
      destruct P'; discriminate.
    + rewrite <- app_assoc in H.
      rewrite generateFilename_same in H by assumption.
      injection H as <-.
      exists (P ++ D), (P ++ D), t.
      repeat split; auto. same_string.
Qed.

(** ** [to_string] writes the decimal digits of its argument *)

Lemma uint_chars_digits d : all_digits (uint_chars d).
Proof. induction d; constructor; (reflexivity || assumption). Qed.

Lemma uint_chars_value_acc d : forall acc : positive,
  fold_left decimal_step (uint_chars d) (Z.pos acc)
  = Z.pos (Pos.of_uint_acc d acc).
Proof.
  induction d; intros acc; [reflexivity | ..];
    cbn [uint_chars NilEmpty.string_of_uint list_ascii_of_string
         fold_left Pos.of_uint_acc];
    fold (uint_chars d); rewrite <- IHd; f_equal;
    unfold decimal_step;
    match goal with |- context [digit_value ?c] =>
      let v := eval vm_compute in (digit_value c) in
      change (digit_value c) with v
    end; lia.
Qed.

Lemma uint_chars_value d :
  fold_left decimal_step (uint_chars d) 0 = Z.of_N (Pos.of_uint d).
Proof.
  induction d; [reflexivity | exact IHd | ..];
    cbn [uint_chars NilEmpty.string_of_uint list_ascii_of_string
         fold_left Pos.of_uint];
    fold (uint_chars d);
    match goal with |- context [decimal_step 0 ?c] =>
      let v := eval vm_compute in (decimal_step 0 c) in
      change (decimal_step 0 c) with v
    end; apply uint_chars_value_acc.
Qed.

Lemma to_string_pos p : to_string (Z.pos p) = uint_chars (Pos.to_uint p).
Proof.
  unfold to_string, uint_chars. cbn [Z.to_int NilZero.string_of_int].
  unfold NilZero.string_of_uint.
  pose proof (DecimalPos.Unsigned.to_uint_nonnil p) as H.
  destruct (Pos.to_uint p); [congruence | reflexivity ..].
Qed.

(** The digits [to_string] writes for a number that is not negative
    denote that number. *)
Lemma to_string_value n : 0 <= n -> decimal_value (to_string n) = n.
Proof.
  intros H. destruct n as [|p|p]; [reflexivity | | lia].
  rewrite to_string_pos. unfold decimal_value.
  change (fun (acc : Z) (c : ascii) => 10 * acc + digit_value c) with decimal_step.
  rewrite uint_chars_value, DecimalPos.Unsigned.of_to. reflexivity.
Qed.

Lemma to_string_digits n :
  0 <= n -> all_digits (to_string n) /\ to_string n <> [].
Proof.
  intros H. destruct n as [|p|p]; [| | lia].
  - split; [repeat constructor | discriminate].
  - rewrite to_string_pos. split; [apply uint_chars_digits|].
    pose proof (DecimalPos.Unsigned.to_uint_nonnil p) as Hp.
    unfold uint_chars. destruct (Pos.to_uint p); [congruence | discriminate ..].
Qed.

(** ** The tests of the vocabulary decide its propositions *)

Lemma has_dot_false t : has_dot t = false <-> dotless t.
Proof.
  induction t as [|c t IH]; [split; [intros _; apply dotless_nil | reflexivity]|].
  unfold has_dot in *. cbn [existsb].
  rewrite dotless_cons, orb_false_iff, IH. reflexivity.
Qed.

Lemma digits_only_true d : digits_only d = true <-> all_digits d.
Proof.
  unfold digits_only, all_digits. rewrite forallb_forall, Forall_forall.
  reflexivity.
Qed.

Lemma ends_with_digit_false p : ends_with_digit p = false <-> digit_boundary p.
Proof.
  unfold ends_with_digit, digit_boundary.
  destruct p as [|c p _] using rev_ind; [cbn; tauto|].
  rewrite rev_unit. split.
  - intros H. right. exists p, c. auto.
  - intros [H | (p' & c' & H & Hc)].
    + destruct p; discriminate H.
    + apply app_inj_tail in H. destruct H as [_ ->]. exact Hc.
Qed.

Lemma closes_stem_true p : closes_stem p = true <-> underscore_stem p.
Proof.
  unfold closes_stem, underscore_stem.
  destruct p as [|c p _] using rev_ind.
  - cbn. split; [discriminate | intros (P' & _ & H); destruct P'; discriminate H].
  - rewrite rev_unit. split.
    + intros H. destruct (rev p) eqn:E; [discriminate H|].
      exists p. split.
      * intros ->. discriminate E.
      * apply Ascii.eqb_eq in H. subst c. reflexivity.
    + intros (P' & HP' & H). apply app_inj_tail in H. destruct H as [-> ->].
      destruct (rev P') eqn:E; [| reflexivity].
      apply (f_equal (@rev ascii)) in E. rewrite rev_involutive in E.
      cbn in E. congruence.
Qed.

Lemma closes_stem_false p : closes_stem p = false <-> ~ underscore_stem p.
Proof.
  rewrite <- closes_stem_true. destruct (closes_stem p); split; congruence.
Qed.

(** ** [saveImage] by what [hasValidExtension] answers *)

Section SaveImage.

Variable imwrite_completes : imwrite_args -> bool.

(** An accepted filename: it is saved under its own name, with the
    parameters of the table entry of its extension. *)
Lemma saveImage_accepted this i :
  initialized this = true ->
  hasValidExtension (filename this) = Ret i -> 0 <= i ->
  exists ft stem,
    nth_error VALID_EXTENSIONS (Z.to_nat i) = Some ft /\
    filename this = stem ++ ext ft /\
    saveImage imwrite_completes this =
    let args := mkArgs (filename this) (format ft) (quality ft) in
    Ret (mkSaved (imwrite_completes args) this (Some args)).
Proof.
  intros Hinit Hv Hi.
  destruct (hasValidExtension_valid_inv _ _ Hv Hi)
    as (X & t & ft & Hf & HX & Ht & _ & Hlt & Hn & He).
  exists ft, X. split; [exact Hn|]. split; [congruence|].
  unfold saveImage. rewrite Hinit, Hv.
  replace (empty (filename this)) with false
    by (rewrite Hf; destruct X; reflexivity).
  cbn [negb orb bind].
  replace (i <? 0) with false by (symmetry; apply Z.ltb_ge; lia).
  replace (EXTENSION_COUNT <=? i) with false by (symmetry; apply Z.leb_gt; lia).
  cbn [orb bind negb]. unfold table_read.
  replace (0 <=? i) with true by (symmetry; apply Z.leb_le; lia).
  replace (i <? EXTENSION_COUNT) with true by (symmetry; apply Z.ltb_lt; lia).
  cbn [andb]. rewrite Hn. reflexivity.
Qed.

(** A filename that [hasValidExtension] rejects with a code: it is
    renamed, and then the table is read at that negative code. *)
Lemma saveImage_rejected this i :
  initialized this = true -> filename this <> [] ->
  hasValidExtension (filename this) = Ret i -> i < 0 ->
  saveImage imwrite_completes this = Undefined (table_read_out_of_bounds i).
Proof.
  intros Hinit Hne Hv Hi. unfold saveImage. rewrite Hinit, Hv.
  replace (empty (filename this)) with false
    by (destruct (filename this); [congruence | reflexivity]).
  cbn [negb orb bind].
  replace (i <? 0) with true by (symmetry; apply Z.ltb_lt; lia).
  cbn [orb].
  destruct (removeExtension_returns (filename this)) as ([b f] & ->).
  cbn [bind].
  unfold addExtension. rewrite Hinit. cbn [negb].
  destruct (removeExtension_returns f) as ([b' f'] & ->).
  cbn [bind negb]. unfold table_read.
  replace (0 <=? i) with false by (symmetry; apply Z.leb_gt; lia).
  reflexivity.
Qed.

(** A filename without any dot: the exception of [hasValidExtension]
    passes through. *)
Lemma saveImage_dotless this :
  initialized this = true -> filename this <> [] ->
  dotless (filename this) ->
  saveImage imwrite_completes this = Throw std_out_of_range.
Proof.
  intros Hinit Hne Hs. unfold saveImage. rewrite Hinit.
  replace (empty (filename this)) with false
    by (destruct (filename this); [congruence | reflexivity]).
  cbn [negb orb]. rewrite hasValidExtension_dotless by assumption.
  reflexivity.
Qed.

End SaveImage.

(** * The functions on the filenames of the documentation *)

Example validate_png : hasValidExtension (lit "photo.png") = Ret 0.
Proof. reflexivity. Qed.

Example validate_ppm : hasValidExtension (lit "scan.v2.ppm") = Ret 5.
Proof. reflexivity. Qed.

Example validate_upper_case : hasValidExtension (lit "photo.PNG") = Ret (-1).
Proof. reflexivity. Qed.

Example validate_empty : hasValidExtension (lit "") = Ret (-3).
Proof. reflexivity. Qed.

Example strip_last_segment :
  removeExtension (lit "archive.tar.png") = Ret (true, lit "archive.tar").
Proof. reflexivity. Qed.

Example add_replaces_bmp :
  addExtension (opened "photo.bmp") (lit "photo.bmp") = Ret (true, lit "photo.png").
Proof. reflexivity. Qed.

Example add_needs_image :
  addExtension (mkImage (lit "photo.bmp") None) (lit "photo.bmp")
  = Ret (false, lit "photo.bmp").
Proof. reflexivity. Qed.

Example generate_first : generateFilename (lit "photo.png") = Ret (lit "photo_1.png").
Proof. reflexivity. Qed.

Example generate_second : generateFilename (lit "photo_1.png") = Ret (lit "photo_2.png").
Proof. reflexivity. Qed.

Example generate_carry : generateFilename (lit "photo_9.png") = Ret (lit "photo_10.png").
Proof. reflexivity. Qed.

Example generate_leading_zeros :
  generateFilename (lit "photo_007.png") = Ret (lit "photo_8.png").
Proof. reflexivity. Qed.

Example generate_empty_seed : generateFilename (lit "") = Ret (lit "").
Proof. reflexivity. Qed.

Example generate_unsupported_seed : generateFilename (lit "photo.bmp") = Ret (lit "").
Proof. reflexivity. Qed.

Example generate_numeric_stem : generateFilename (lit "42.png") = Ret (lit "42.png").
Proof. reflexivity. Qed.

Example generate_leading_underscore :
  generateFilename (lit "_42.png") = Ret (lit "_42.png").
Proof. reflexivity. Qed.

Example generate_int_max :
  generateFilename (lit "photo_2147483647.png") = Undefined signed_overflow.
Proof. reflexivity. Qed.

Example save_accepted (imwrite_completes : imwrite_args -> bool) :
  saveImage imwrite_completes (opened "photo.jpg")
  = let args := mkArgs (lit "photo.jpg") CV_IMWRITE_JPEG_QUALITY 100 in
    Ret (mkSaved (imwrite_completes args) (opened "photo.jpg") (Some args)).
Proof. reflexivity. Qed.

Example save_without_image (imwrite_completes : imwrite_args -> bool) :
  saveImage imwrite_completes (mkImage (lit "photo.jpg") None)
  = Ret (mkSaved false (mkImage (lit "photo.jpg") None) None).
Proof. reflexivity. Qed.

(** * The claims *)

(** ** Saving *)

(** C1.  [saveImage] is to hand the codec the parameters of the table
    entry that matches the name it saves under, and to read the table
    at 0..5 only.  On an opened image named "photo.bmp" it does not:
    the name becomes "photo.png", [ext_idx] keeps the -1 that
    [hasValidExtension] gave for ".bmp", and the table is read at -1. *)
Theorem saveImage_reads_outside_table (imwrite_completes : imwrite_args -> bool) :
  saveImage imwrite_completes (opened "photo.bmp")
  = Undefined (table_read_out_of_bounds (-1)).
Proof. reflexivity. Qed.

(** ** Totality *)

(** C2.  The four filename operations are to return on every string.
    [removeExtension] and [addExtension] do; [hasValidExtension] and
    [generateFilename], which calls it first, throw
    [std::out_of_range] on "photo", a name without a dot. *)
Theorem filename_without_dot_throws :
  hasValidExtension (lit "photo") = Throw std_out_of_range /\
  generateFilename (lit "photo") = Throw std_out_of_range /\
  (forall s, returns (removeExtension s)) /\
  (forall this f, returns (addExtension this f)).
Proof.
  repeat split; try reflexivity.
  - apply removeExtension_returns.
  - apply addExtension_returns.
Qed.

(** ** [hasValidExtension] *)

(** C5.  A filename without extension is to get the code -2.  When the
    only dot is the first character it does; when there is no dot at
    all (and the name is not empty) the call throws
    [std::out_of_range] instead of returning. *)
Theorem hasValidExtension_no_extension :
  (forall s, s <> [] -> has_dot s = false ->
             hasValidExtension s = Throw std_out_of_range) /\
  (forall t, has_dot t = false ->
             hasValidExtension ("."%char :: t) = Ret (-2)).
Proof.
  split.
  - intros s Hne Hs. apply hasValidExtension_dotless; [exact Hne|].
    apply has_dot_false, Hs.
  - intros t Ht. apply hasValidExtension_leading_dot, has_dot_false, Ht.
Qed.

Lemma hasValidExtension_no_extension_witness :
  (lit "photo" <> [] /\ has_dot (lit "photo") = false /\
   hasValidExtension (lit "photo") = Throw std_out_of_range) /\
  (has_dot (lit "hidden") = false /\
   hasValidExtension (lit ".hidden") = Ret (-2)).
Proof.
  split.
  - split; [discriminate|]. split; [reflexivity|].
    apply (proj1 hasValidExtension_no_extension (lit "photo"));
      [discriminate | reflexivity].
  - split; [reflexivity|].
    apply (proj2 hasValidExtension_no_extension (lit "hidden")). reflexivity.
Defined.

(** C6, as the code has it.  A filename made of a non-empty stem and an
    extension of the table gets the position of that extension in the
    table, compared character by character. *)
Theorem hasValidExtension_valid stem i ft :
  stem <> [] -> nth_error VALID_EXTENSIONS i = Some ft ->
  hasValidExtension (stem ++ ext ft) = Ret (Z.of_nat i).
Proof.
  intros Hstem Hn.
  destruct (table_entries i ft Hn) as [_ Hin].
  destruct (table_ext_shape ft Hin) as (t & He & Ht).
  rewrite He, hasValidExtension_split by assumption.
  rewrite <- He, (search_table_hit i ft Hn). reflexivity.
Qed.

Lemma hasValidExtension_valid_witness :
  lit "photo" <> [] /\
  nth_error VALID_EXTENSIONS 2 = Some (mkFormatTrip (lit ".jpeg") CV_IMWRITE_JPEG_QUALITY 100) /\
  hasValidExtension (lit "photo.jpeg") = Ret 2.
Proof.
  split; [discriminate|]. split; [reflexivity|].
  apply (hasValidExtension_valid (lit "photo") 2
           (mkFormatTrip (lit ".jpeg") CV_IMWRITE_JPEG_QUALITY 100));
    [discriminate | reflexivity].
Defined.

(** C6, as stated, fails: without the condition on the stem the
    filename may be an extension and nothing else, and ".png" gets the
    code -2, not the position 0 of ".png". *)
Lemma hasValidExtension_bare_extension :
  ~ (forall stem i ft,
       nth_error VALID_EXTENSIONS i = Some ft ->
       hasValidExtension (stem ++ ext ft) = Ret (Z.of_nat i)).
Proof.
  intros H.
  specialize (H [] 0%nat (mkFormatTrip (lit ".png") CV_IMWRITE_PNG_COMPRESSION 9)
                eq_refl).
  discriminate H.
Qed.

(** ** [removeExtension] *)

(** C7.  With a dot behind the first character, [removeExtension] cuts
    the filename at its last dot and reports success; without one
    (empty name, no dot, or a dot in first place only) it reports
    failure and leaves the filename as it is. *)
Theorem removeExtension_last_extension :
  (forall X t, X <> [] -> has_dot t = false ->
               removeExtension (X ++ "."%char :: t) = Ret (true, X)) /\
  (forall s, has_dot (tl s) = false -> removeExtension s = Ret (false, s)).
Proof.
  split.
  - intros X t HX Ht. apply removeExtension_split; [exact HX|].
    apply has_dot_false, Ht.
  - intros s Hs. apply removeExtension_none, has_dot_false, Hs.
Qed.

Lemma removeExtension_last_extension_witness :
  (lit "archive.tar" <> [] /\ has_dot (lit "png") = false /\
   removeExtension (lit "archive.tar.png") = Ret (true, lit "archive.tar")) /\
  (has_dot (tl (lit ".hidden")) = false /\
   removeExtension (lit ".hidden") = Ret (false, lit ".hidden")) /\
  (has_dot (tl (lit "")) = false /\
   removeExtension (lit "") = Ret (false, lit "")).
Proof.
  split; [| split].
  - split; [discriminate|]. split; [reflexivity|].
    apply (proj1 removeExtension_last_extension (lit "archive.tar") (lit "png"));
      [discriminate | reflexivity].
  - split; [reflexivity|].
    apply (proj2 removeExtension_last_extension (lit ".hidden")). reflexivity.
  - split; [reflexivity|].
    apply (proj2 removeExtension_last_extension (lit "")). reflexivity.
Defined.

(** ** [addExtension] *)

(** C8, as the code has it.  On an opened image [addExtension] cuts the
    filename at its last dot, whatever the extension, and appends
    ".png"; a filename without such a dot just gets ".png" appended.
    A filename that [hasValidExtension] accepts stays as it is because
    [saveImage], the caller, does not rename it. *)
Theorem addExtension_replaces_extension :
  (forall this X t,
     initialized this = true -> X <> [] -> has_dot t = false ->
     addExtension this (X ++ "."%char :: t) = Ret (true, X ++ lit ".png")) /\
  (forall this f,
     initialized this = true -> has_dot (tl f) = false ->
     addExtension this f = Ret (true, f ++ lit ".png")) /\
  (forall imwrite_completes this i,
     initialized this = true ->
     hasValidExtension (filename this) = Ret i -> 0 <= i ->
     exists r, saveImage imwrite_completes this = Ret r /\ image r = this).
Proof.
  split; [| split].
  - intros this X t Hinit HX Ht.
    apply addExtension_split; try assumption. apply has_dot_false, Ht.
  - intros this f Hinit Hf.
    apply addExtension_none; [exact Hinit|]. apply has_dot_false, Hf.
  - intros codec this i Hinit Hv Hi.
    destruct (saveImage_accepted codec this i Hinit Hv Hi)
      as (ft & stem & _ & _ & ->).
    eexists. split; reflexivity.
Qed.

Lemma addExtension_replaces_extension_witness :
  (initialized (opened "photo.bmp") = true /\ lit "photo" <> [] /\
   has_dot (lit "bmp") = false /\
   addExtension (opened "photo.bmp") (lit "photo.bmp")
   = Ret (true, lit "photo.png")) /\
  (initialized (opened "photo") = true /\ has_dot (tl (lit "photo")) = false /\
   addExtension (opened "photo") (lit "photo") = Ret (true, lit "photo.png")) /\
  (initialized (opened "photo.jpg") = true /\
   hasValidExtension (filename (opened "photo.jpg")) = Ret 1 /\ 0 <= 1 /\
   exists r, saveImage (fun _ => true) (opened "photo.jpg") = Ret r /\
             image r = opened "photo.jpg").
Proof.
  split; [| split].
  - split; [reflexivity|]. split; [discriminate|]. split; [reflexivity|].
    apply (proj1 addExtension_replaces_extension
                 (opened "photo.bmp") (lit "photo") (lit "bmp"));
      [reflexivity | discriminate | reflexivity].
  - split; [reflexivity|]. split; [reflexivity|].
    apply (proj1 (proj2 addExtension_replaces_extension)
                 (opened "photo") (lit "photo")); reflexivity.
  - split; [reflexivity|]. split; [reflexivity|]. split; [lia|].
    apply (proj2 (proj2 addExtension_replaces_extension)
                 (fun _ => true) (opened "photo.jpg") 1);
      [reflexivity | reflexivity | lia].
Defined.

(** C8, as stated, fails: [addExtension] itself does not look at the
    extension, and turns the accepted "photo.jpg" into "photo.png". *)
Lemma addExtension_renames_valid :
  ~ (forall this f i,
       hasValidExtension f = Ret i -> 0 <= i ->
       exists b, addExtension this f = Ret (b, f)).
Proof.
  intros H.
  destruct (H (opened "photo.jpg") (lit "photo.jpg") 1 eq_refl ltac:(lia))
    as [b Hb].
  discriminate Hb.
Qed.

(** ** [generateFilename] *)

(** C3, as the code has it.  A seed made of a non-empty stem, an
    underscore, a run of digits denoting a number below [INT_MAX] and
    an extension of the table comes back with the digits of that number
    plus one in place of the run; stem, underscore and extension stay. *)
Theorem generateFilename_increments P D i ft :
  P <> [] -> D <> [] -> digits_only D = true ->
  decimal_value D < INT_MAX ->
  nth_error VALID_EXTENSIONS i = Some ft ->
  generateFilename (P ++ "_"%char :: D ++ ext ft)
  = Ret (P ++ "_"%char :: to_string (decimal_value D + 1) ++ ext ft).
Proof.
  intros HP HD Hdig Hmax Hn.
  apply digits_only_true in Hdig.
  destruct (table_entries i ft Hn) as [Hi Hin].
  destruct (table_ext_shape ft Hin) as (t & He & Ht).
  assert (Hv : 0 <= search_table ("."%char :: t) VALID_EXTENSIONS 0)
    by (rewrite <- He, (search_table_hit i ft Hn); lia).
  rewrite He, generateFilename_again by assumption.
  rewrite stoi_digits by assumption.
  replace (decimal_value D <=? INT_MAX) with true
    by (symmetry; apply Z.leb_le; lia).
  cbn [bind]. unfold int_add.
  assert (H0 : 0 <= decimal_value D).
  { unfold decimal_value.
    assert (G : forall l acc, all_digits l -> 0 <= acc ->
              0 <= fold_left (fun a c => 10 * a + digit_value c) l acc).
    { induction l as [|c l IH]; intros acc Hl Hacc; [exact Hacc|].
      inversion Hl as [|? ? Hc Hl']; subst. cbn [fold_left]. apply IH; [exact Hl'|].
      unfold isdigit in Hc. apply andb_true_iff in Hc. destruct Hc as [Hc _].
      apply Nat.leb_le in Hc. unfold digit_value. lia. }
    apply G; [exact Hdig | lia]. }
  replace ((- INT_MAX - 1 <=? decimal_value D + 1)
           && (decimal_value D + 1 <=? INT_MAX)) with true.
  - reflexivity.
  - symmetry. apply andb_true_iff.
    split; apply Z.leb_le; unfold INT_MAX in *; lia.
Qed.

Lemma generateFilename_increments_witness :
  lit "photo" <> [] /\ lit "9" <> [] /\ digits_only (lit "9") = true /\
  decimal_value (lit "9") < INT_MAX /\
  nth_error VALID_EXTENSIONS 0
  = Some (mkFormatTrip (lit ".png") CV_IMWRITE_PNG_COMPRESSION 9) /\
  generateFilename (lit "photo_9.png") = Ret (lit "photo_10.png").
Proof.
  split; [discriminate|]. split; [discriminate|]. split; [reflexivity|].
  split; [reflexivity|]. split; [reflexivity|].
  apply (generateFilename_increments (lit "photo") (lit "9") 0
           (mkFormatTrip (lit ".png") CV_IMWRITE_PNG_COMPRESSION 9));
    [discriminate | discriminate | reflexivity | reflexivity | reflexivity].
Defined.

(** C3, as stated, fails: nothing bounds the number, and on
    "photo_2147483648.png" [std::stoi] throws [std::out_of_range]. *)
Lemma generateFilename_large_number :
  ~ (forall P D i ft,
       P <> [] -> D <> [] -> digits_only D = true ->
       nth_error VALID_EXTENSIONS i = Some ft ->
       generateFilename (P ++ "_"%char :: D ++ ext ft)
       = Ret (P ++ "_"%char :: to_string (decimal_value D + 1) ++ ext ft)).
Proof.
  intros H.
  pose proof (H (lit "photo") (lit "2147483648") 0%nat
                (mkFormatTrip (lit ".png") CV_IMWRITE_PNG_COMPRESSION 9)
                ltac:(discriminate) ltac:(discriminate) eq_refl eq_refl) as K.
  change (generateFilename (lit "photo_2147483648.png")
          = Ret (lit "photo_2147483649.png")) in K.
  vm_compute in K. discriminate K.
Qed.

(** C4.  A seed with an extension of the table and a character that is
    no digit right in front of it gets "_1" put in between. *)
Theorem generateFilename_first_modification X c i ft :
  isdigit c = false ->
  nth_error VALID_EXTENSIONS i = Some ft ->
  generateFilename (X ++ c :: ext ft) = Ret (X ++ c :: lit "_1" ++ ext ft).
Proof.
  intros Hc Hn.
  destruct (table_entries i ft Hn) as [Hi Hin].
  destruct (table_ext_shape ft Hin) as (t & He & Ht).
  assert (Hv : 0 <= search_table ("."%char :: t) VALID_EXTENSIONS 0)
    by (rewrite <- He, (search_table_hit i ft Hn); lia).
  rewrite He.
  replace (X ++ c :: "."%char :: t) with ((X ++ [c]) ++ "."%char :: t)
    by same_string.
  rewrite generateFilename_first by assumption.
  f_equal. same_string.
Qed.

Lemma generateFilename_first_modification_witness :
  isdigit "o"%char = false /\
  nth_error VALID_EXTENSIONS 0
  = Some (mkFormatTrip (lit ".png") CV_IMWRITE_PNG_COMPRESSION 9) /\
  generateFilename (lit "photo.png") = Ret (lit "photo_1.png").
Proof.
  split; [reflexivity|]. split; [reflexivity|].
  apply (generateFilename_first_modification (lit "phot") "o"%char 0
           (mkFormatTrip (lit ".png") CV_IMWRITE_PNG_COMPRESSION 9));
    reflexivity.
Defined.

(** C9.  A seed with an extension of the table and digits in front of
    it that no underscore-closed stem precedes (the digits are the
    whole stem, or what precedes them does not end in an underscore
    with something before it) comes back unchanged. *)
Theorem generateFilename_numeric_stem P D i ft :
  D <> [] -> digits_only D = true ->
  ends_with_digit P = false -> closes_stem P = false ->
  nth_error VALID_EXTENSIONS i = Some ft ->
  generateFilename (P ++ D ++ ext ft) = Ret (P ++ D ++ ext ft).
Proof.
  intros HD Hdig HP Hno Hn.
  apply digits_only_true in Hdig. apply ends_with_digit_false in HP.
  apply closes_stem_false in Hno.
  destruct (table_entries i ft Hn) as [Hi Hin].
  destruct (table_ext_shape ft Hin) as (t & He & Ht).
  assert (Hv : 0 <= search_table ("."%char :: t) VALID_EXTENSIONS 0)
    by (rewrite <- He, (search_table_hit i ft Hn); lia).
  rewrite He. apply generateFilename_same; assumption.
Qed.

Lemma generateFilename_numeric_stem_witness :
  lit "42" <> [] /\ digits_only (lit "42") = true /\
  ends_with_digit (lit "") = false /\ closes_stem (lit "") = false /\
  nth_error VALID_EXTENSIONS 0
  = Some (mkFormatTrip (lit ".png") CV_IMWRITE_PNG_COMPRESSION 9) /\
  generateFilename (lit "42.png") = Ret (lit "42.png").
Proof.
  split; [discriminate|]. split; [reflexivity|]. split; [reflexivity|].
  split; [reflexivity|]. split; [reflexivity|].
  apply (generateFilename_numeric_stem (lit "") (lit "42") 0
           (mkFormatTrip (lit ".png") CV_IMWRITE_PNG_COMPRESSION 9));
    [discriminate | reflexivity | reflexivity | reflexivity | reflexivity].
Defined.

(** C10.  Whenever [generateFilename] returns a name that is not
    empty, seed and name end in the same extension of the table, only
    the stem in front of it may differ, and [hasValidExtension] answers
    the position of that extension for both. *)
Theorem generateFilename_keeps_extension seed r :
  generateFilename seed = Ret r -> r <> [] ->
  exists i ft stem stem',
    0 <= i < EXTENSION_COUNT /\
    nth_error VALID_EXTENSIONS (Z.to_nat i) = Some ft /\
    seed = stem ++ ext ft /\ r = stem' ++ ext ft /\
    hasValidExtension seed = Ret i /\
    hasValidExtension r = Ret i.
Proof.
  intros H Hr.
  destruct (generateFilename_shape seed r H Hr)
    as (X & X' & t & -> & -> & HX & HX' & Ht & Hv).
  destruct (search_table_range ("."%char :: t) _ eq_refl)
    as [K | (Hrange & ft & Hn & He)];
    [rewrite K in Hv; lia|].
  exists (search_table ("."%char :: t) VALID_EXTENSIONS 0), ft, X, X'.
  rewrite He. repeat split; try (exact Hn || apply Hrange).
  - apply hasValidExtension_split; assumption.
  - apply hasValidExtension_split; assumption.
Qed.

Lemma generateFilename_keeps_extension_witness :
  generateFilename (lit "photo_9.png") = Ret (lit "photo_10.png") /\
  lit "photo_10.png" <> [] /\
  exists i ft stem stem',
    0 <= i < EXTENSION_COUNT /\
    nth_error VALID_EXTENSIONS (Z.to_nat i) = Some ft /\
    lit "photo_9.png" = stem ++ ext ft /\
    lit "photo_10.png" = stem' ++ ext ft /\
    hasValidExtension (lit "photo_9.png") = Ret i /\
    hasValidExtension (lit "photo_10.png") = Ret i.
Proof.
  split; [reflexivity|]. split; [discriminate|].
  apply (generateFilename_keeps_extension (lit "photo_9.png") (lit "photo_10.png"));
    [reflexivity | discriminate].
Defined.

(** * Further properties of the code *)

(** ** Lemmas shared by the statements below *)

Lemma search_table_miss e rest idx :
  existsb (fun ft => equal e (ext ft)) rest = false ->
  search_table e rest idx = -1.
Proof.
  revert idx. induction rest as [|ft rest IH]; intros idx H; [reflexivity|].
  cbn [existsb] in H. apply orb_false_iff in H. destruct H as [H1 H2].
  cbn [search_table]. rewrite H1. apply IH, H2.
Qed.

Lemma decimal_value_nonneg D : all_digits D -> 0 <= decimal_value D.
Proof.
  unfold decimal_value. intros HD.
  assert (G : forall l acc, all_digits l -> 0 <= acc ->
            0 <= fold_left (fun a c => 10 * a + digit_value c) l acc).
  { induction l as [|c l IH]; intros acc Hl Hacc; [exact Hacc|].
    inversion Hl as [|? ? Hc Hl']; subst. cbn [fold_left]. apply IH; [exact Hl'|].
    unfold isdigit in Hc. apply andb_true_iff in Hc. destruct Hc as [Hc _].
    apply Nat.leb_le in Hc. unfold digit_value. lia. }
  apply G; [exact HD | lia].
Qed.

Lemma int_add_one n :
  0 <= n ->
  int_add n 1 = if n <? INT_MAX then Ret (n + 1) else Undefined signed_overflow.
Proof.
  intros Hn. unfold int_add. cbv zeta.
  assert (HM : INT_MAX = 2147483647) by reflexivity.
  destruct (n <? INT_MAX) eqn:E.
  - apply Z.ltb_lt in E.
    replace ((- INT_MAX - 1 <=? n + 1) && (n + 1 <=? INT_MAX)) with true;
      [reflexivity|].
    symmetry. apply andb_true_iff. split; apply Z.leb_le; lia.
  - apply Z.ltb_ge in E.
    replace (n + 1 <=? INT_MAX) with false by (symmetry; apply Z.leb_gt; lia).
    rewrite andb_false_r. reflexivity.
Qed.

(** The outcome on a seed with an underscore-closed stem and a number,
    by the size of the number. *)
Lemma generateFilename_number P D t :
  P <> [] -> D <> [] -> all_digits D -> dotless t ->
  0 <= search_table ("."%char :: t) VALID_EXTENSIONS 0 ->
  generateFilename (P ++ "_"%char :: D ++ "."%char :: t) =
  if decimal_value D <? INT_MAX
  then Ret (P ++ "_"%char :: to_string (decimal_value D + 1) ++ "."%char :: t)
  else if decimal_value D =? INT_MAX then Undefined signed_overflow
       else Throw std_out_of_range.
Proof.
  intros HP HD Hdig Ht Hv.
  rewrite generateFilename_again by assumption.
  rewrite stoi_digits by assumption.
  pose proof (decimal_value_nonneg D Hdig) as H0.
  destruct (decimal_value D <? INT_MAX) eqn:E1.
  - apply Z.ltb_lt in E1.
    replace (decimal_value D <=? INT_MAX) with true
      by (symmetry; apply Z.leb_le; lia).
    cbn [bind]. rewrite int_add_one by exact H0.
    replace (decimal_value D <? INT_MAX) with true
      by (symmetry; apply Z.ltb_lt; lia).
    reflexivity.
  - apply Z.ltb_ge in E1. destruct (decimal_value D =? INT_MAX) eqn:E2.
    + apply Z.eqb_eq in E2. rewrite E2. reflexivity.
    + apply Z.eqb_neq in E2.
      replace (decimal_value D <=? INT_MAX) with false
        by (symmetry; apply Z.leb_gt; lia).
      reflexivity.
Qed.

(** The three ways in which [generateFilename] returns a name for a
    seed it accepts. *)
Lemma generateFilename_cases X t r :
  X <> [] -> dotless t ->
  0 <= search_table ("."%char :: t) VALID_EXTENSIONS 0 ->
  generateFilename (X ++ "."%char :: t) = Ret r ->
  (exists X0 c, X = X0 ++ [c] /\ isdigit c = false /\
                r = X ++ lit "_1" ++ "."%char :: t) \/
  (exists P D, P <> [] /\ D <> [] /\ all_digits D /\
               X = P ++ "_"%char :: D /\ decimal_value D < INT_MAX /\
               r = P ++ "_"%char :: to_string (decimal_value D + 1)
                     ++ "."%char :: t) \/
  (exists P D, D <> [] /\ all_digits D /\ digit_boundary P /\
               ~ underscore_stem P /\ X = P ++ D /\
               r = X ++ "."%char :: t).
Proof.
  intros HX Ht Hv H.
  destruct (trailing_digits_split X) as (P & D & -> & Hdig & HP).
  destruct D as [|d0 D0].
  - left. rewrite app_nil_r in *.
    destruct HP as [-> | (P' & c & -> & Hc)]; [congruence|].
    rewrite generateFilename_first in H by assumption.
    injection H as <-. exists P', c. auto.
  - set (D := d0 :: D0) in *.
    assert (HD : D <> []) by discriminate.
    right. destruct (classic_underscore_stem P) as [(P' & HP' & ->) | Hno].
    + left.
      replace (((P' ++ ["_"%char]) ++ D) ++ "."%char :: t)
        with (P' ++ "_"%char :: D ++ "."%char :: t) in H by same_string.
      rewrite generateFilename_number in H by assumption.
      destruct (decimal_value D <? INT_MAX) eqn:E;
        [| destruct (decimal_value D =? INT_MAX); discriminate H].
      apply Z.ltb_lt in E. injection H as <-.
      exists P', D. repeat split; auto. same_string.
    + right. rewrite <- app_assoc in H.
      rewrite generateFilename_same in H by assumption.
      injection H as <-. exists P, D. repeat split; auto. same_string.
Qed.

(** On a seed it accepts [generateFilename] never returns the empty
    name. *)
Lemma generateFilename_accepted_nonempty X t r :
  X <> [] -> dotless t ->
  0 <= search_table ("."%char :: t) VALID_EXTENSIONS 0 ->
  generateFilename (X ++ "."%char :: t) = Ret r -> r <> [].
Proof.
  intros HX Ht Hv H.
  destruct (generateFilename_cases X t r HX Ht Hv H)
    as [(X0 & c & _ & _ & ->) | [(P & D & HP & _ & _ & _ & _ & ->)
                                | (P & D & _ & _ & _ & _ & _ & ->)]].
  - destruct X; [congruence | discriminate].
  - destruct P; [congruence | discriminate].
  - destruct X; [congruence | discriminate].
Qed.

Lemma in_table_search e :
  0 <= search_table e VALID_EXTENSIONS 0 -> in_table e = true.
Proof.
  intros H. unfold in_table.
  destruct (existsb (fun ft => equal e (ext ft)) VALID_EXTENSIONS) eqn:E;
    [reflexivity|].
  rewrite (search_table_miss e VALID_EXTENSIONS 0 E) in H. lia.
Qed.

Lemma search_table_png :
  search_table ("."%char :: lit "png") VALID_EXTENSIONS 0 = 0.
Proof. reflexivity. Qed.

Lemma addExtension_true_initialized this f g :
  addExtension this f = Ret (true, g) -> initialized this = true.
Proof.
  unfold addExtension. destruct (initialized this); [reflexivity|].
  cbn [negb]. congruence.
Qed.

(** What [addExtension] makes of a name on an opened image: a stem
    that is empty only for the empty name, and ".png". *)
Lemma addExtension_result this f g :
  addExtension this f = Ret (true, g) ->
  exists stem, g = stem ++ "."%char :: lit "png" /\ (stem = [] <-> f = []).
Proof.
  intros H. pose proof (addExtension_true_initialized this f g H) as Hinit.
  destruct (extension_boundary f) as [Hf | (X & t & -> & HX & Ht)].
  - rewrite addExtension_none in H by assumption.
    injection H as <-. exists f. split; [reflexivity | tauto].
  - rewrite addExtension_split in H by assumption.
    injection H as <-. exists X. split; [reflexivity|].
    split; [congruence | intros K; destruct X; [congruence | discriminate K]].
Qed.

(** ** [hasValidExtension], further *)

(** X1.  An answer from 0 up is a position of the table, and the
    filename is a non-empty stem followed by the extension that stands
    at that position. *)
Theorem hasValidExtension_accepts_table_extensions_only s i :
  hasValidExtension s = Ret i -> 0 <= i ->
  exists stem ft,
    stem <> [] /\ i < EXTENSION_COUNT /\
    nth_error VALID_EXTENSIONS (Z.to_nat i) = Some ft /\
    s = stem ++ ext ft.
Proof.
  intros H Hi.
  destruct (hasValidExtension_valid_inv s i H Hi)
    as (X & t & ft & -> & HX & _ & _ & Hlt & Hn & He).
  exists X, ft. rewrite He. auto.
Qed.

Lemma hasValidExtension_accepts_table_extensions_only_witness :
  hasValidExtension (lit "photo.jpg") = Ret 1 /\ 0 <= 1 /\
  exists stem ft,
    stem <> [] /\ 1 < EXTENSION_COUNT /\
    nth_error VALID_EXTENSIONS (Z.to_nat 1) = Some ft /\
    lit "photo.jpg" = stem ++ ext ft.
Proof.
  split; [reflexivity|]. split; [lia|].
  apply (hasValidExtension_accepts_table_extensions_only (lit "photo.jpg") 1);
    [reflexivity | lia].
Defined.

(** X2.  A filename with a non-empty stem whose extension is not,
    character by character, one of the table gets the code -1. *)
Theorem hasValidExtension_unsupported stem t :
  stem <> [] -> has_dot t = false -> in_table ("."%char :: t) = false ->
  hasValidExtension (stem ++ "."%char :: t) = Ret (-1).
Proof.
  intros Hstem Ht Hno. apply has_dot_false in Ht.
  rewrite hasValidExtension_split by assumption.
  f_equal. apply search_table_miss. exact Hno.
Qed.

Lemma hasValidExtension_unsupported_witness :
  lit "photo" <> [] /\ has_dot (lit "PNG") = false /\
  in_table ("."%char :: lit "PNG") = false /\
  hasValidExtension (lit "photo.PNG") = Ret (-1).
Proof.
  split; [discriminate|]. split; [reflexivity|]. split; [reflexivity|].
  apply (hasValidExtension_unsupported (lit "photo") (lit "PNG"));
    [discriminate | reflexivity | reflexivity].
Defined.

(** X3.  [hasValidExtension] either returns a code from -3 to 5, on the
    empty name or a name with a dot, or throws [std::out_of_range], on
    a non-empty name without a dot; nothing else happens. *)
Theorem hasValidExtension_outcomes s :
  (exists i, hasValidExtension s = Ret i /\ -3 <= i < EXTENSION_COUNT /\
             (s = [] \/ has_dot s = true)) \/
  (hasValidExtension s = Throw std_out_of_range /\
   s <> [] /\ has_dot s = false).
Proof.
  destruct s as [|c s]; [left; exists (-3); cbn; repeat split; auto; lia|].
  destruct (last_dot_split (c :: s)) as [Hs | (X & t & E & Ht)].
  - right. split; [apply hasValidExtension_dotless; [discriminate | exact Hs]|].
    split; [discriminate | apply has_dot_false, Hs].
  - left. assert (Hdot : has_dot (c :: s) = true).
    { destruct (has_dot (c :: s)) eqn:K; [reflexivity|].
      apply has_dot_false in K. exfalso. apply K. rewrite E.
      apply in_or_app. right. left. reflexivity. }
    rewrite E. destruct X as [|x X].
    + exists (-2). rewrite <- E.
      split; [rewrite E; apply hasValidExtension_leading_dot, Ht|].
      split; [unfold EXTENSION_COUNT; lia | right; exact Hdot].
    + exists (search_table ("."%char :: t) VALID_EXTENSIONS 0).
      split; [apply hasValidExtension_split; [discriminate | exact Ht]|].
      split; [| right; rewrite <- E; exact Hdot].
      destruct (search_table_range ("."%char :: t) _ eq_refl)
        as [K | (Hr & _)]; [rewrite K; unfold EXTENSION_COUNT|]; lia.
Qed.

(** ** [removeExtension] and [addExtension], further *)

(** X4.  When [removeExtension] reports success, what it leaves is not
    empty, and what it has cut off is one dot and a part without dot. *)
Theorem removeExtension_success_shape s s' :
  removeExtension s = Ret (true, s') ->
  s' <> [] /\ exists t, has_dot t = false /\ s = s' ++ "."%char :: t.
Proof.
  intros H.
  destruct (extension_boundary s) as [Hs | (X & t & -> & HX & Ht)].
  - rewrite removeExtension_none in H by exact Hs. discriminate H.
  - rewrite removeExtension_split in H by assumption.
    injection H as <-. split; [exact HX|].
    exists t. split; [apply has_dot_false, Ht | reflexivity].
Qed.

Lemma removeExtension_success_shape_witness :
  removeExtension (lit "archive.tar.png") = Ret (true, lit "archive.tar") /\
  lit "archive.tar" <> [] /\
  exists t, has_dot t = false /\
            lit "archive.tar.png" = lit "archive.tar" ++ "."%char :: t.
Proof.
  split; [reflexivity|].
  apply (removeExtension_success_shape (lit "archive.tar.png") (lit "archive.tar")).
  reflexivity.
Defined.

(** X5.  The name [addExtension] produces is accepted by
    [hasValidExtension] at position 0 (".png"), except for the empty
    name, which becomes ".png" and gets the code -2. *)
Theorem addExtension_result_validates this f g :
  addExtension this f = Ret (true, g) ->
  hasValidExtension g = Ret (if empty f then -2 else 0).
Proof.
  intros H. destruct (addExtension_result this f g H) as (stem & -> & Hstem).
  destruct f as [|c f]; cbn [empty].
  - rewrite (proj2 Hstem eq_refl). reflexivity.
  - rewrite hasValidExtension_split; [rewrite search_table_png; reflexivity | |].
    + intros K. apply Hstem in K. discriminate K.
    + apply has_dot_false. reflexivity.
Qed.

Lemma addExtension_result_validates_witness :
  addExtension (opened "photo.bmp") (lit "photo.bmp") = Ret (true, lit "photo.png") /\
  hasValidExtension (lit "photo.png") = Ret (if empty (lit "photo.bmp") then -2 else 0).
Proof.
  split; [reflexivity|].
  apply (addExtension_result_validates (opened "photo.bmp") (lit "photo.bmp")).
  reflexivity.
Defined.

(** X6.  On a name that is not empty [addExtension] is idempotent: the
    name it has produced comes back unchanged from a second call. *)
Theorem addExtension_idempotent this f g :
  f <> [] -> addExtension this f = Ret (true, g) ->
  addExtension this g = Ret (true, g).
Proof.
  intros Hf H. pose proof (addExtension_true_initialized this f g H) as Hinit.
  destruct (addExtension_result this f g H) as (stem & -> & Hstem).
  apply addExtension_split; [exact Hinit | tauto |].
  apply has_dot_false. reflexivity.
Qed.

Lemma addExtension_idempotent_witness :
  lit "archive.tar.bmp" <> [] /\
  addExtension (opened "x") (lit "archive.tar.bmp") = Ret (true, lit "archive.tar.png") /\
  addExtension (opened "x") (lit "archive.tar.png") = Ret (true, lit "archive.tar.png").
Proof.
  split; [discriminate|]. split; [reflexivity|].
  apply (addExtension_idempotent (opened "x") (lit "archive.tar.bmp"));
    [discriminate | reflexivity].
Defined.

(** ** [generateFilename], further *)

Lemma table_ext_accepted i ft :
  nth_error VALID_EXTENSIONS i = Some ft ->
  exists t, ext ft = "."%char :: t /\ dotless t /\
            0 <= search_table ("."%char :: t) VALID_EXTENSIONS 0.
Proof.
  intros Hn. destruct (table_entries i ft Hn) as [_ Hin].
  destruct (table_ext_shape ft Hin) as (t & He & Ht).
  exists t. repeat split; auto.
  rewrite <- He, (search_table_hit i ft Hn). lia.
Qed.

(** X7.  A name that carries the number [k] of a generation comes back
    with [k + 1]: what the function writes it reads back. *)
Theorem generateFilename_next_generation P k i ft :
  P <> [] -> 0 <= k < INT_MAX ->
  nth_error VALID_EXTENSIONS i = Some ft ->
  generateFilename (P ++ "_"%char :: to_string k ++ ext ft)
  = Ret (P ++ "_"%char :: to_string (k + 1) ++ ext ft).
Proof.
  intros HP Hk Hn.
  destruct (table_ext_accepted i ft Hn) as (t & -> & Ht & Hv).
  destruct (to_string_digits k (proj1 Hk)) as [Hdig Hne].
  rewrite generateFilename_number by assumption.
  rewrite to_string_value by lia.
  replace (k <? INT_MAX) with true by (symmetry; apply Z.ltb_lt; lia).
  reflexivity.
Qed.

Lemma generateFilename_next_generation_witness :
  lit "photo" <> [] /\ 0 <= 99 < INT_MAX /\
  nth_error VALID_EXTENSIONS 1
  = Some (mkFormatTrip (lit ".jpg") CV_IMWRITE_JPEG_QUALITY 100) /\
  generateFilename (lit "photo_99.jpg") = Ret (lit "photo_100.jpg").
Proof.
  split; [discriminate|]. split; [unfold INT_MAX; lia|]. split; [reflexivity|].
  apply (generateFilename_next_generation (lit "photo") 99 1
           (mkFormatTrip (lit ".jpg") CV_IMWRITE_JPEG_QUALITY 100));
    [discriminate | unfold INT_MAX; lia | reflexivity].
Defined.

Lemma nth_generation_from P t : forall m k,
  P <> [] -> dotless t ->
  0 <= search_table ("."%char :: t) VALID_EXTENSIONS 0 ->
  0 <= k -> k + Z.of_nat m <= INT_MAX ->
  nth_generation m (P ++ "_"%char :: to_string k ++ "."%char :: t)
  = Ret (P ++ "_"%char :: to_string (k + Z.of_nat m) ++ "."%char :: t).
Proof.
  induction m as [|m IH]; intros k HP Ht Hv Hk Hm.
  - cbn [nth_generation]. rewrite Z.add_0_r. reflexivity.
  - cbn [nth_generation].
    destruct (to_string_digits k Hk) as [Hdig Hne].
    rewrite generateFilename_number by assumption.
    rewrite to_string_value by lia.
    replace (k <? INT_MAX) with true by (symmetry; apply Z.ltb_lt; lia).
    cbn [bind]. rewrite IH by (assumption || lia).
    replace (k + 1 + Z.of_nat m) with (k + Z.of_nat (S m)) by lia.
    reflexivity.
Qed.

(** X8.  Copying a copy: starting from a name whose stem does not end
    in a digit, the [n]-th name in a row is the first one with "_n" in
    front of the extension, for every [n] from 1 up to [INT_MAX]. *)
Theorem nth_generation_name n X c i ft :
  isdigit c = false -> (1 <= n)%nat -> Z.of_nat n <= INT_MAX ->
  nth_error VALID_EXTENSIONS i = Some ft ->
  nth_generation n (X ++ c :: ext ft)
  = Ret (X ++ c :: "_"%char :: to_string (Z.of_nat n) ++ ext ft).
Proof.
  intros Hc Hn Hmax Hft.
  destruct (table_ext_accepted i ft Hft) as (t & -> & Ht & Hv).
  destruct n as [|m]; [lia|]. cbn [nth_generation].
  replace (X ++ c :: "."%char :: t) with ((X ++ [c]) ++ "."%char :: t)
    by same_string.
  rewrite generateFilename_first by assumption. cbn [bind].
  replace ((X ++ [c]) ++ lit "_1" ++ "."%char :: t)
    with ((X ++ [c]) ++ "_"%char :: to_string 1 ++ "."%char :: t)
    by same_string.
  rewrite nth_generation_from;
    [| destruct X; discriminate | exact Ht | exact Hv | lia | lia].
  replace (1 + Z.of_nat m) with (Z.of_nat (S m)) by lia.
  f_equal. same_string.
Qed.

Lemma nth_generation_name_witness :
  isdigit "o"%char = false /\ (1 <= 3)%nat /\ Z.of_nat 3 <= INT_MAX /\
  nth_error VALID_EXTENSIONS 0
  = Some (mkFormatTrip (lit ".png") CV_IMWRITE_PNG_COMPRESSION 9) /\
  nth_generation 3 (lit "photo.png") = Ret (lit "photo_3.png").
Proof.
  split; [reflexivity|]. split; [lia|]. split; [unfold INT_MAX; lia|].
  split; [reflexivity|].
  apply (nth_generation_name 3 (lit "phot") "o"%char 0
           (mkFormatTrip (lit ".png") CV_IMWRITE_PNG_COMPRESSION 9));
    [reflexivity | lia | unfold INT_MAX; lia | reflexivity].
Defined.

(** X9.  The only non-empty seeds that come back unchanged are those
    with digits in front of an extension of the table and no
    underscore-closed stem in front of the digits; every other name
    that is returned differs from its seed. *)
Theorem generateFilename_unchanged_seed seed :
  seed <> [] -> generateFilename seed = Ret seed ->
  exists P D e,
    seed = P ++ D ++ e /\ D <> [] /\ digits_only D = true /\
    ends_with_digit P = false /\ closes_stem P = false /\
    in_table e = true.
Proof.
  intros Hne H.
  destruct (generateFilename_shape seed seed H Hne)
    as (X & X' & t & E & _ & HX & _ & Ht & Hv).
  subst seed.
  destruct (generateFilename_cases X t _ HX Ht Hv H)
    as [(X0 & c & _ & _ & K) | [(P & D & HP & HD & Hdig & -> & Hmax & K)
                               | (P & D & HD & Hdig & HP & Hno & -> & _)]].
  - exfalso. apply app_inv_head in K. discriminate K.
  - exfalso.
    replace ((P ++ "_"%char :: D) ++ "."%char :: t)
      with (P ++ "_"%char :: D ++ "."%char :: t) in K by same_string.
    apply app_inv_head in K. injection K as K. apply app_inv_tail in K.
    pose proof (decimal_value_nonneg D Hdig) as H0.
    pose proof (to_string_value (decimal_value D + 1) ltac:(lia)) as V.
    rewrite <- K in V. lia.
  - exists P, D, ("."%char :: t).
    split; [same_string|]. split; [exact HD|].
    split; [apply digits_only_true, Hdig|].
    split; [apply ends_with_digit_false, HP|].
    split; [apply closes_stem_false, Hno | apply in_table_search, Hv].
Qed.

Lemma generateFilename_unchanged_seed_witness :
  lit "a42.png" <> [] /\
  generateFilename (lit "a42.png") = Ret (lit "a42.png") /\
  exists P D e,
    lit "a42.png" = P ++ D ++ e /\ D <> [] /\ digits_only D = true /\
    ends_with_digit P = false /\ closes_stem P = false /\
    in_table e = true.
Proof.
  split; [discriminate|]. split; [reflexivity|].
  apply (generateFilename_unchanged_seed (lit "a42.png"));
    [discriminate | reflexivity].
Defined.

Lemma generateFilename_rejected seed i :
  hasValidExtension seed = Ret i -> i < 0 -> generateFilename seed = Ret [].
Proof.
  intros Hi Hneg. unfold generateFilename. destruct (empty seed); [reflexivity|].
  rewrite Hi. cbn [bind].
  replace (i >=? 0) with false
    by (symmetry; rewrite Z.geb_leb; apply Z.leb_gt; lia).
  reflexivity.
Qed.

(** X10.  The empty name is returned for the empty seed and for a seed
    that [hasValidExtension] rejects with a negative code, and for no
    other seed. *)
Theorem generateFilename_empty_name seed :
  generateFilename seed = Ret [] <->
  seed = [] \/ exists i, hasValidExtension seed = Ret i /\ i < 0.
Proof.
  split.
  - intros H. destruct seed as [|c s]; [left; reflexivity | right].
    destruct (hasValidExtension (c :: s)) as [v| |] eqn:Ev;
      try (unfold generateFilename in H; cbn [empty] in H;
           rewrite Ev in H; discriminate H).
    exists v. split; [reflexivity|].
    destruct (Z_lt_ge_dec v 0) as [Hv | Hv]; [exact Hv | exfalso].
    destruct (hasValidExtension_valid_inv (c :: s) v Ev ltac:(lia))
      as (X & t & ft & E & HX & Ht & Hs & _).
    rewrite E in H.
    apply (generateFilename_accepted_nonempty X t [] HX Ht); [lia | exact H | reflexivity].
  - intros [-> | (i & Hi & Hneg)]; [reflexivity|].
    exact (generateFilename_rejected seed i Hi Hneg).
Qed.

Lemma generateFilename_empty_name_witness :
  (exists i, hasValidExtension (lit "photo.bmp") = Ret i /\ i < 0) /\
  generateFilename (lit "photo.bmp") = Ret [].
Proof.
  assert (H : exists i, hasValidExtension (lit "photo.bmp") = Ret i /\ i < 0)
    by (exists (-1); split; [reflexivity | lia]).
  split; [exact H|].
  apply (proj2 (generateFilename_empty_name (lit "photo.bmp"))).
  right. exact H.
Defined.

(** X11.  With a number in the name that is [INT_MAX] or more the call
    does not return: at [INT_MAX] the increment overflows, above it
    [std::stoi] throws [std::out_of_range]. *)
Theorem generateFilename_number_out_of_int P D i ft :
  P <> [] -> D <> [] -> digits_only D = true ->
  INT_MAX <= decimal_value D ->
  nth_error VALID_EXTENSIONS i = Some ft ->
  generateFilename (P ++ "_"%char :: D ++ ext ft)
  = if decimal_value D =? INT_MAX then Undefined signed_overflow
    else Throw std_out_of_range.
Proof.
  intros HP HD Hdig Hmax Hn. apply digits_only_true in Hdig.
  destruct (table_ext_accepted i ft Hn) as (t & -> & Ht & Hv).
  rewrite generateFilename_number by assumption.
  replace (decimal_value D <? INT_MAX) with false
    by (symmetry; apply Z.ltb_ge; lia).
  reflexivity.
Qed.

Lemma generateFilename_number_out_of_int_witness :
  lit "scan" <> [] /\ lit "99999999999" <> [] /\
  digits_only (lit "99999999999") = true /\
  INT_MAX <= decimal_value (lit "99999999999") /\
  nth_error VALID_EXTENSIONS 5
  = Some (mkFormatTrip (lit ".ppm") CV_IMWRITE_PXM_BINARY 1) /\
  generateFilename (lit "scan_99999999999.ppm") = Throw std_out_of_range.
Proof.
  split; [discriminate|]. split; [discriminate|]. split; [reflexivity|].
  split; [discriminate|]. split; [reflexivity|].
  apply (generateFilename_number_out_of_int (lit "scan") (lit "99999999999") 5
           (mkFormatTrip (lit ".ppm") CV_IMWRITE_PXM_BINARY 1));
    [discriminate | discriminate | reflexivity | discriminate | reflexivity].
Defined.

(** ** [saveImage], further *)



(** X13.  On an opened image whose name [hasValidExtension] rejects
    with a negative code (no stem, or an extension that is not in the
    table) [saveImage] does not return: after renaming it reads the
    table at that code. *)
Theorem saveImage_rejected_name
  (imwrite_completes : imwrite_args -> bool) this i :
  initialized this = true -> empty (filename this) = false ->
  hasValidExtension (filename this) = Ret i -> i < 0 ->
  saveImage imwrite_completes this = Undefined (table_read_out_of_bounds i).
Proof.
  intros Hinit Hne Hv Hi. apply saveImage_rejected; try assumption.
  intros K. rewrite K in Hne. discriminate Hne.
Qed.

Lemma saveImage_rejected_name_witness :
  initialized (opened ".hidden") = true /\
  empty (filename (opened ".hidden")) = false /\
  hasValidExtension (filename (opened ".hidden")) = Ret (-2) /\ -2 < 0 /\
  saveImage (fun _ => true) (opened ".hidden")
  = Undefined (table_read_out_of_bounds (-2)).
Proof.
  split; [reflexivity|]. split; [reflexivity|]. split; [reflexivity|].
  split; [lia|].
  apply (saveImage_rejected_name (fun _ => true) (opened ".hidden") (-2));
    [reflexivity | reflexivity | reflexivity | lia].
Defined.

(** X14.  On an opened image whose name is not empty and has no dot
    [saveImage] throws [std::out_of_range]: the exception of
    [hasValidExtension] leaves it, nothing is renamed or written. *)
Theorem saveImage_name_without_dot
  (imwrite_completes : imwrite_args -> bool) this :
  initialized this = true -> empty (filename this) = false ->
  has_dot (filename this) = false ->
  saveImage imwrite_completes this = Throw std_out_of_range.
Proof.
  intros Hinit Hne Hdot. apply saveImage_dotless; try assumption.
  - intros K. rewrite K in Hne. discriminate Hne.
  - apply has_dot_false, Hdot.
Qed.

Lemma saveImage_name_without_dot_witness :
  initialized (opened "mario") = true /\
  empty (filename (opened "mario")) = false /\
  has_dot (filename (opened "mario")) = false /\
  saveImage (fun _ => true) (opened "mario") = Throw std_out_of_range.
Proof.
  split; [reflexivity|]. split; [reflexivity|]. split; [reflexivity|].
  apply (saveImage_name_without_dot (fun _ => true) (opened "mario"));
    reflexivity.
Defined.

(** ** [openImage] and the constructors *)

Section OpenImage.

Variable file_exists : str -> bool.
Variable imread : str -> Mat.

(** X15.  A call of [openImage] that fails leaves the object as it
    was.  A call that succeeds was made on an object without image,
    and leaves it with a name that is not empty, names a file that
    exists, and is the old name or the argument, and with the matrix
    read from that file. *)
Theorem openImage_outcome this filename_param ok this' :
  openImage file_exists imread this filename_param = (ok, this') ->
  if ok then
    initialized this = false /\
    empty (filename this') = false /\
    file_exists (filename this') = true /\
    super this' = Some (imread (filename this')) /\
    (filename this' = filename this \/ filename this' = filename_param)
  else this' = this.
Proof.
  unfold openImage. intros H.
  destruct (initialized this) eqn:E1; cbn [orb] in H;
    [injection H as <- <-; reflexivity|].
  destruct (empty filename_param) eqn:E2, (empty (filename this)) eqn:E3;
    cbn [andb orb negb] in H;
    try (injection H as <- <-; reflexivity);
    destruct (file_exists filename_param) eqn:E4;
    destruct (file_exists (filename this)) eqn:E5;
    cbn [andb orb negb] in H;
    injection H as <- <-; cbn [filename super]; auto 10.
Qed.

Lemma Image_new_eq name :
  Image_new file_exists imread name
  = mkImage name (if negb (empty name) && file_exists name
                  then Some (imread name) else None).
Proof.
  unfold Image_new, openImage. cbn [initialized super filename empty orb andb negb].
  destruct name as [|c name]; [reflexivity|]. cbn [empty negb andb].
  destruct (file_exists (c :: name)); reflexivity.
Qed.

Lemma setupImage_eq argv1 :
  setupImage file_exists imread argv1 =
  let read name := mkImage name (Some (imread name)) in
  let fallback :=
    if file_exists DEFAULT_IMG_FILENAME then read DEFAULT_IMG_FILENAME
    else mkImage [] None in
  Some match argv1 with
       | Some arg =>
           if negb (empty arg) && file_exists arg then read arg else fallback
       | None => fallback
       end.
Proof.
  unfold setupImage. rewrite Image_new_eq. cbn [empty negb andb].
  destruct argv1 as [arg|]; cbv zeta.
  - unfold openImage at 1. cbn [initialized super filename empty andb orb negb].
    rewrite andb_true_r.
    destruct (empty arg) eqn:E; cbn [negb andb orb].
    + unfold openImage. cbn. destruct (file_exists _); reflexivity.
    + destruct (file_exists arg); cbn [orb]; [reflexivity|].
      unfold openImage. cbn. destruct (file_exists _); reflexivity.
  - cbn [orb]. unfold openImage. cbn.
    destruct (file_exists _); reflexivity.
Qed.

(** X16.  The constructor keeps the name it is given in every case,
    and holds a matrix exactly when the name is not empty and names a
    file that exists: the matrix read from it. *)
Theorem Image_new_result name :
  Image_new file_exists imread name
  = mkImage name (if negb (empty name) && file_exists name
                  then Some (imread name) else None).
Proof. apply Image_new_eq. Qed.

(** X17.  An object constructed from the name of a file that exists
    cannot be given another file: [openImage] with a name that is not
    empty fails on it and changes nothing, also when the file could
    not be decoded and the object holds no image. *)
Theorem openImage_after_new name filename_param :
  empty name = false -> file_exists name = true ->
  empty filename_param = false ->
  openImage file_exists imread (Image_new file_exists imread name) filename_param
  = (false, Image_new file_exists imread name).
Proof.
  intros Hname Hfile Hparam. rewrite Image_new_eq, Hname, Hfile.
  cbn [negb andb]. unfold openImage. cbn [filename].
  rewrite Hname, Hfile, Hparam. cbn [andb orb negb].
  destruct (initialized _); reflexivity.
Qed.

(** X18.  [setupImage] never returns a null pointer.  The object it
    returns is read from [argv[1]] when that is given, not empty and
    names a file that exists, else from "mario.png" when that file
    exists, and else has neither name nor image. *)
Theorem setupImage_result argv1 :
  setupImage file_exists imread argv1 =
  let read name := mkImage name (Some (imread name)) in
  let fallback :=
    if file_exists DEFAULT_IMG_FILENAME then read DEFAULT_IMG_FILENAME
    else mkImage [] None in
  Some match argv1 with
       | Some arg =>
           if negb (empty arg) && file_exists arg then read arg else fallback
       | None => fallback
       end.
Proof. apply setupImage_eq. Qed.

End OpenImage.

Lemma openImage_outcome_witness :
  openImage (fun name => equal name (lit "mario.png")) (fun _ => mkMat true)
            (mkImage (lit "missing.png") None) (lit "mario.png")
  = (true, opened "mario.png") /\
  initialized (mkImage (lit "missing.png") None) = false /\
  empty (filename (opened "mario.png")) = false /\
  equal (filename (opened "mario.png")) (lit "mario.png") = true /\
  super (opened "mario.png") = Some (mkMat true) /\
  (filename (opened "mario.png") = lit "missing.png" \/
   filename (opened "mario.png") = lit "mario.png").
Proof.
  split; [reflexivity|].
  apply (openImage_outcome (fun name => equal name (lit "mario.png"))
           (fun _ => mkMat true)
           (mkImage (lit "missing.png") None) (lit "mario.png")
           true (opened "mario.png")).
  reflexivity.
Defined.

Lemma openImage_after_new_witness :
  empty (lit "mario.png") = false /\
  (fun _ : str => true) (lit "mario.png") = true /\
  empty (lit "other.png") = false /\
  openImage (fun _ => true) (fun _ => mkMat false)
            (Image_new (fun _ => true) (fun _ => mkMat false) (lit "mario.png"))
            (lit "other.png")
  = (false, Image_new (fun _ => true) (fun _ => mkMat false) (lit "mario.png")).
Proof.
  split; [reflexivity|]. split; [reflexivity|]. split; [reflexivity|].
  apply (openImage_after_new (fun _ => true) (fun _ => mkMat false)
           (lit "mario.png") (lit "other.png")); reflexivity.
Defined.

(** ** The copy constructor *)

Lemma Image_copy_inv img_src c :
  Image_copy img_src = Ret c ->
  generateFilename (filename img_src) = Ret (filename c) /\
  initialized c = initialized img_src.
Proof.
  unfold Image_copy. intros H.
  destruct (generateFilename (filename img_src)) as [name| |];
    cbn [bind] in H; try discriminate H.
  injection H as <-. split; [reflexivity|].
  unfold initialized. cbn [super]. destruct (super img_src); reflexivity.
Qed.

(** X19.  The copy of an opened image whose name is accepted can be
    saved as it is: its generated name is accepted at the same
    position of the table, and [saveImage] calls the codec with that
    name and the format and quality the original's extension has. *)
Theorem copy_of_accepted_saves
  (imwrite_completes : imwrite_args -> bool) img_src c i :
  initialized img_src = true ->
  hasValidExtension (filename img_src) = Ret i -> 0 <= i ->
  Image_copy img_src = Ret c ->
  exists ft,
    nth_error VALID_EXTENSIONS (Z.to_nat i) = Some ft /\
    hasValidExtension (filename c) = Ret i /\
    saveImage imwrite_completes c
    = Ret (mkSaved
             (imwrite_completes (mkArgs (filename c) (format ft) (quality ft)))
             c (Some (mkArgs (filename c) (format ft) (quality ft)))).
Proof.
  intros Hinit Hv Hi Hc.
  destruct (Image_copy_inv img_src c Hc) as [G Hinit'].
  rewrite Hinit in Hinit'.
  destruct (hasValidExtension_valid_inv _ _ Hv Hi)
    as (X & t & ft0 & E & HX & Ht & Hs & _).
  assert (Hne : filename c <> []).
  { rewrite E in G.
    apply (generateFilename_accepted_nonempty X t (filename c) HX Ht);
      [rewrite <- Hs; exact Hi | exact G]. }
  destruct (generateFilename_shape _ _ G Hne)
    as (X1 & X2 & t' & E1 & E2 & HX1 & HX2 & Ht' & Hv').
  assert (Hv2 : hasValidExtension (filename c) = Ret i).
  { rewrite E2, hasValidExtension_split by assumption.
    rewrite E1, hasValidExtension_split in Hv by assumption. exact Hv. }
  destruct (saveImage_accepted imwrite_completes c i Hinit' Hv2 Hi)
    as (ft & stem & Hn & _ & S).
  exists ft. repeat split; assumption.
Qed.

Lemma copy_of_accepted_saves_witness :
  initialized (opened "photo_9.png") = true /\
  hasValidExtension (filename (opened "photo_9.png")) = Ret 0 /\ 0 <= 0 /\
  Image_copy (opened "photo_9.png") = Ret (opened "photo_10.png") /\
  exists ft,
    nth_error VALID_EXTENSIONS (Z.to_nat 0) = Some ft /\
    hasValidExtension (filename (opened "photo_10.png")) = Ret 0 /\
    saveImage (fun _ => true) (opened "photo_10.png")
    = Ret (mkSaved
             ((fun _ => true)
                (mkArgs (filename (opened "photo_10.png")) (format ft) (quality ft)))
             (opened "photo_10.png")
             (Some (mkArgs (filename (opened "photo_10.png"))
                           (format ft) (quality ft)))).
Proof.
  split; [reflexivity|]. split; [reflexivity|]. split; [lia|].
  split; [reflexivity|].
  apply (copy_of_accepted_saves (fun _ => true)
           (opened "photo_9.png") (opened "photo_10.png") 0);
    [reflexivity | reflexivity | lia | reflexivity].
Defined.

(** X20.  The copy of an image whose name [hasValidExtension] rejects
    with a negative code has the empty name, and saving the copy
    writes nothing: [saveImage] returns [false]. *)
Theorem copy_of_rejected_has_no_name
  (imwrite_completes : imwrite_args -> bool) img_src i :
  hasValidExtension (filename img_src) = Ret i -> i < 0 ->
  exists c,
    Image_copy img_src = Ret c /\ filename c = [] /\
    saveImage imwrite_completes c = Ret (mkSaved false c None).
Proof.
  intros Hv Hi.
  assert (G : generateFilename (filename img_src) = Ret []).
  { exact (generateFilename_rejected _ i Hv Hi). }
  unfold Image_copy. rewrite G. cbn [bind].
  eexists. split; [reflexivity|]. split; [reflexivity|].
  unfold saveImage. cbn [filename empty]. rewrite orb_true_r. reflexivity.
Qed.

Lemma copy_of_rejected_has_no_name_witness :
  hasValidExtension (filename (opened "photo.bmp")) = Ret (-1) /\ -1 < 0 /\
  exists c,
    Image_copy (opened "photo.bmp") = Ret c /\ filename c = [] /\
    saveImage (fun _ => true) c = Ret (mkSaved false c None).
Proof.
  split; [reflexivity|]. split; [lia|].
  apply (copy_of_rejected_has_no_name (fun _ => true) (opened "photo.bmp") (-1));
    [reflexivity | lia].
Defined.

(** ** The pixel functions *)

Lemma to_int_small u : 0 <= u < 2 ^ 31 -> Raster.to_int u = u.
Proof.
  intros H. unfold Raster.to_int.
  replace (u <? 2 ^ 31) with true by (symmetry; apply Z.ltb_lt; lia).
  reflexivity.
Qed.

Lemma raster_in_range_true m row col :
  0 <= row < Raster.rows m -> 0 <= col < Raster.cols m ->
  (0 <=? row) && (row <? Raster.rows m) && (0 <=? col) && (col <? Raster.cols m)
  = true.
Proof.
  intros Hr Hc. repeat (apply andb_true_iff; split);
    (apply Z.leb_le || apply Z.ltb_lt); lia.
Qed.

Lemma raster_dimInRange_spec this row col :
  Raster.dimInRange this row col = true <->
  exists m px, Raster.super this = Some m /\ Raster.data m = Some px /\
               0 <= row < Raster.rows m /\ 0 <= col < Raster.cols m.
Proof.
  unfold Raster.dimInRange, Raster.initialized.
  destruct (Raster.super this) as [m|];
    [| cbn; split; [discriminate | intros (? & ? & K & _); discriminate K]].
  destruct (Raster.data m) as [px|] eqn:Ed;
    [| cbn; split; [discriminate
                   | intros (? & ? & K & K' & _); injection K as <-; congruence]].
  cbn [negb].
  destruct ((row <? 0) || (row >=? Raster.rows m) || (col <? 0)
            || (col >=? Raster.cols m)) eqn:E.
  - split; [discriminate|]. intros (m' & px' & K & _ & Hr & Hc).
    injection K as <-. exfalso.
    repeat (apply orb_true_iff in E; destruct E as [E | E]);
      (apply Z.ltb_lt in E || (rewrite Z.geb_leb in E; apply Z.leb_le in E)); lia.
  - intros. split; [intros _ | reflexivity].
    repeat (apply orb_false_iff in E; destruct E as [E ?]).
    exists m, px. repeat split; auto;
      repeat match goal with
             | K : (_ <? _) = false |- _ => apply Z.ltb_ge in K
             | K : (_ >=? _) = false |- _ =>
                 rewrite Z.geb_leb in K; apply Z.leb_gt in K
             end; lia.
Qed.

Lemma firstn_as_map {A : Type} (d : A) (l : list A) : forall n,
  (n <= length l)%nat ->
  map (fun k => nth k l d) (seq 0 n) = firstn n l.
Proof.
  induction l as [|a l IH]; intros n Hn.
  - destruct n; [reflexivity | cbn in Hn; lia].
  - destruct n as [|n]; [reflexivity|].
    cbn [seq map firstn nth]. f_equal.
    rewrite <- seq_shift, map_map. apply IH. cbn in Hn. lia.
Qed.

Lemma subscript_nth {A : Type} (d : A) (arr : list A) k :
  (k < length arr)%nat ->
  Raster.subscript arr (Z.of_nat k) = Raster.Value (nth k arr d).
Proof.
  intros Hk. unfold Raster.subscript.
  replace (Z.of_nat k <? 0) with false by (symmetry; apply Z.ltb_ge; lia).
  rewrite Nat2Z.id.
  destruct (nth_error arr k) as [a|] eqn:E;
    [| apply nth_error_None in E; lia].
  rewrite (nth_error_nth arr k d E). reflexivity.
Qed.

(** The check of the colours never refuses: a [uchar] is below 256. *)
Lemma check_colors_passes c_arr : forall left clr,
  (clr + left <= length c_arr)%nat ->
  Raster.check_colors c_arr (Z.of_nat clr) left
  = Raster.Value (Z.of_nat (clr + left)).
Proof.
  unfold Raster.uchar in *.
  induction left as [|left IH]; intros clr H.
  - rewrite Nat.add_0_r. reflexivity.
  - cbn [Raster.check_colors].
    rewrite (subscript_nth Byte.x00) by lia. cbn [Raster.then_].
    assert (Hb : (Raster.uint_of_uchar (nth clr c_arr Byte.x00) <? 256) = true).
    { apply Z.ltb_lt. unfold Raster.uint_of_uchar.
      pose proof (Byte.to_N_bounded (nth clr c_arr Byte.x00)). lia. }
    rewrite Hb. replace (Z.of_nat clr + 1) with (Z.of_nat (S clr)) by lia.
    rewrite IH by lia. f_equal. lia.
Qed.

(** What the writing loop leaves: the colours of the array in the
    channels of the pixel, everything else as it was. *)
Lemma put_colors_result row col c_arr : forall left clr m px,
  Raster.data m = Some px ->
  0 <= row < Raster.rows m -> 0 <= col < Raster.cols m ->
  (clr + left <= length c_arr)%nat ->
  exists px',
    Raster.put_colors m row col c_arr (Z.of_nat clr) left
    = Raster.Value (Raster.mkMat (Raster.rows m) (Raster.cols m)
                      (Raster.channels m) (Some px')) /\
    forall r c k,
      px' r c k =
      if (r =? row) && (c =? col)
         && (Z.of_nat clr <=? k) && (k <? Z.of_nat (clr + left))
      then nth (Z.to_nat k) c_arr Byte.x00 else px r c k.
Proof.
  unfold Raster.uchar in *.
  induction left as [|left IH]; intros clr m px Hd Hr Hc Hlen.
  - exists px. split.
    + cbn [Raster.put_colors]. destruct m; cbn in *. congruence.
    + intros r c k. rewrite Nat.add_0_r.
      destruct ((r =? row) && (c =? col)); cbn [andb]; [|reflexivity].
      destruct (Z.of_nat clr <=? k) eqn:E1; cbn [andb]; [|reflexivity].
      apply Z.leb_le in E1.
      replace (k <? Z.of_nat clr) with false by (symmetry; apply Z.ltb_ge; lia).
      reflexivity.
  - cbn [Raster.put_colors].
    rewrite (subscript_nth Byte.x00) by lia. cbn [Raster.then_].
    unfold Raster.at_put. rewrite Hd, raster_in_range_true by assumption.
    cbn [Raster.then_].
    replace (Z.of_nat clr + 1) with (Z.of_nat (S clr)) by lia.
    edestruct (IH (S clr)) as (px' & E & Hpx');
      [| | | | rewrite E]; cbn [Raster.data Raster.rows Raster.cols];
      try reflexivity; try assumption; try lia.
    exists px'. split; [reflexivity|].
    intros r c k. rewrite Hpx'.
    destruct (r =? row) eqn:Er, (c =? col) eqn:Ec; cbn [andb]; try reflexivity.
    destruct (Z.leb_spec (Z.of_nat (S clr)) k), (Z.leb_spec (Z.of_nat clr) k),
             (Z.ltb_spec k (Z.of_nat (S clr + left))),
             (Z.ltb_spec k (Z.of_nat (clr + S left)));
      cbn [andb]; try lia; try reflexivity.
    + destruct (Z.eqb_spec k (Z.of_nat clr)); [lia | reflexivity].
    + destruct (Z.eqb_spec k (Z.of_nat clr)); [| lia].
      subst k. rewrite Nat2Z.id. reflexivity.
    + destruct (Z.eqb_spec k (Z.of_nat clr)); [lia | reflexivity].
Qed.

Lemma raster_initialized this m px :
  Raster.super this = Some m -> Raster.data m = Some px ->
  Raster.initialized this = true.
Proof. intros Hs Hd. unfold Raster.initialized. rewrite Hs, Hd. reflexivity. Qed.

Lemma channels_cases n : 1 <= n <= 5 -> n = 1 \/ n = 2 \/ n = 3 \/ n = 4 \/ n = 5.
Proof. lia. Qed.

(** Inside the matrix [getArrColors] returns the channels of the pixel. *)
Lemma getArrColors_value this m px row col :
  Raster.super this = Some m -> Raster.data m = Some px ->
  0 <= Raster.to_int row < Raster.rows m ->
  0 <= Raster.to_int col < Raster.cols m ->
  1 <= Raster.channels m <= 5 ->
  Raster.getArrColors this row col
  = Raster.Value
      (Some (Raster.copy_channels (px (Raster.to_int row) (Raster.to_int col))
               (Z.to_nat (Raster.channels m)))).
Proof.
  intros Hs Hd Hr Hc Hn. unfold Raster.getArrColors.
  rewrite (raster_initialized this m px Hs Hd), Hs. cbn [negb].
  assert (Hpix : Raster.pixel_of this row col
                 = Raster.Value (px (Raster.to_int row) (Raster.to_int col))).
  { unfold Raster.pixel_of, Raster.at_.
    rewrite Hs, Hd, raster_in_range_true by assumption. reflexivity. }
  destruct (channels_cases _ Hn) as [E | [E | [E | [E | E]]]]; rewrite E;
    unfold Raster.getArrColors_one, Raster.getArrColors_two,
           Raster.getArrColors_three, Raster.getArrColors_four,
           Raster.getArrColors_five;
    rewrite Hpix; reflexivity.
Qed.

(** Outside the matrix it calls [cv::Mat::at] all the same. *)
Lemma getArrColors_outside this m px row col :
  Raster.super this = Some m -> Raster.data m = Some px ->
  Raster.dimInRange this (Raster.to_int row) (Raster.to_int col) = false ->
  1 <= Raster.channels m <= 5 ->
  Raster.getArrColors this row col
  = Raster.OutsideMatrix (Raster.to_int row) (Raster.to_int col).
Proof.
  intros Hs Hd Hout Hn. unfold Raster.getArrColors.
  rewrite (raster_initialized this m px Hs Hd), Hs. cbn [negb].
  assert (Hpix : Raster.pixel_of this row col
                 = Raster.OutsideMatrix (Raster.to_int row) (Raster.to_int col)).
  { unfold Raster.pixel_of, Raster.at_. rewrite Hs, Hd.
    destruct ((0 <=? Raster.to_int row) && (Raster.to_int row <? Raster.rows m)
              && (0 <=? Raster.to_int col) && (Raster.to_int col <? Raster.cols m))
      eqn:E; [| reflexivity].
    exfalso.
    assert (K : Raster.dimInRange this (Raster.to_int row) (Raster.to_int col) = true).
    { apply raster_dimInRange_spec. exists m, px.
      repeat (apply andb_true_iff in E; destruct E as [E ?]).
      repeat match goal with
             | K : (_ <=? _) = true |- _ => apply Z.leb_le in K
             | K : (_ <? _) = true |- _ => apply Z.ltb_lt in K
             end.
      repeat split; auto. }
    congruence. }
  destruct (channels_cases _ Hn) as [E | [E | [E | [E | E]]]]; rewrite E;
    unfold Raster.getArrColors_one, Raster.getArrColors_two,
           Raster.getArrColors_three, Raster.getArrColors_four,
           Raster.getArrColors_five;
    rewrite Hpix; reflexivity.
Qed.

(** Past its tests [setPixel] is the writing loop. *)
Lemma setPixel_writes this m px row col c_arr :
  Raster.super this = Some m -> Raster.data m = Some px ->
  0 <= Raster.to_int row < Raster.rows m ->
  0 <= Raster.to_int col < Raster.cols m ->
  1 <= Raster.channels m <= 5 ->
  Raster.channels m <= Z.of_nat (length c_arr) ->
  Raster.setPixel this row col c_arr =
  Raster.then_
    (Raster.put_colors m (Raster.to_int row) (Raster.to_int col) c_arr 0
       (Z.to_nat (Raster.channels m)))
    (fun m' => Raster.Value (true, Raster.mkImage (Raster.filename this) (Some m'))).
Proof.
  intros Hs Hd Hr Hc Hn Hlen. unfold Raster.setPixel.
  rewrite (raster_initialized this m px Hs Hd).
  assert (Hin : Raster.dimInRange this (Raster.to_int row) (Raster.to_int col) = true)
    by (apply raster_dimInRange_spec; exists m, px; auto).
  rewrite Hin, Hs. cbn [negb orb]. cbv zeta.
  pose proof (check_colors_passes c_arr (Z.to_nat (Raster.channels m)) 0) as Hck.
  cbn [Nat.add Z.of_nat] in Hck. rewrite Hck by lia.
  cbn [Raster.then_]. rewrite Z2Nat.id by lia. rewrite Z.eqb_refl. cbn [negb].
  destruct (channels_cases _ Hn) as [E | [E | [E | [E | E]]]]; rewrite E;
    reflexivity.
Qed.

(** X21.  What [setPixel] writes [getArrColors] reads: on an image
    with 1 to 5 channels and a pixel inside it, [setPixel] succeeds,
    the pixel then holds the first [channels] values of the array, the
    name is kept, and every other pixel reads as before. *)
Theorem setPixel_then_getArrColors this m px row col c_arr :
  Raster.super this = Some m -> Raster.data m = Some px ->
  0 <= row < Raster.rows m -> 0 <= col < Raster.cols m ->
  row < 2 ^ 31 -> col < 2 ^ 31 ->
  1 <= Raster.channels m <= 5 ->
  Raster.channels m <= Z.of_nat (length c_arr) ->
  exists this',
    Raster.setPixel this row col c_arr = Raster.Value (true, this') /\
    Raster.filename this' = Raster.filename this /\
    Raster.getArrColors this' row col
    = Raster.Value (Some (firstn (Z.to_nat (Raster.channels m)) c_arr)) /\
    forall r c,
      0 <= r < Raster.rows m -> 0 <= c < Raster.cols m ->
      r < 2 ^ 31 -> c < 2 ^ 31 -> r <> row \/ c <> col ->
      Raster.getArrColors this' r c = Raster.getArrColors this r c.
Proof.
  unfold Raster.uchar in *.
  intros Hs Hd Hr Hc Hr31 Hc31 Hn Hlen.
  assert (Er : Raster.to_int row = row) by (apply to_int_small; lia).
  assert (Ec : Raster.to_int col = col) by (apply to_int_small; lia).
  rewrite (setPixel_writes this m px row col c_arr) by (rewrite ?Er, ?Ec; assumption).
  rewrite Er, Ec.
  destruct (put_colors_result row col c_arr (Z.to_nat (Raster.channels m)) 0 m px)
    as (px' & E & Hpx'); try assumption;
    [cbn [Nat.add]; unfold Raster.uchar in *; lia|].
  cbn [Z.of_nat] in E. rewrite E. cbn [Raster.then_].
  eexists. split; [reflexivity|]. split; [reflexivity|].
  set (m' := Raster.mkMat (Raster.rows m) (Raster.cols m) (Raster.channels m)
               (Some px')).
  split.
  - rewrite (getArrColors_value _ m' px') by (rewrite ?Er, ?Ec; auto).
    rewrite Er, Ec. cbn [Raster.channels m']. do 2 f_equal.
    unfold Raster.copy_channels.
    rewrite <- (firstn_as_map Byte.x00) by (unfold Raster.uchar in *; lia).
    apply map_ext_in. intros k Hk. apply in_seq in Hk. rewrite Hpx'.
    rewrite !Z.eqb_refl. cbn [andb Nat.add].
    replace (Z.of_nat 0 <=? Z.of_nat k) with true
      by (symmetry; apply Z.leb_le; lia).
    replace (Z.of_nat k <? Z.of_nat (Z.to_nat (Raster.channels m))) with true
      by (symmetry; apply Z.ltb_lt; lia).
    cbn [andb]. rewrite Nat2Z.id. reflexivity.
  - intros r c Hr' Hc' Hr31' Hc31' Hneq.
    assert (Er' : Raster.to_int r = r) by (apply to_int_small; lia).
    assert (Ec' : Raster.to_int c = c) by (apply to_int_small; lia).
    rewrite (getArrColors_value _ m' px') by (rewrite ?Er', ?Ec'; auto).
    rewrite (getArrColors_value this m px) by (rewrite ?Er', ?Ec'; auto).
    rewrite Er', Ec'. cbn [Raster.channels m']. do 2 f_equal.
    unfold Raster.copy_channels. apply map_ext. intros k. rewrite Hpx'.
    replace ((r =? row) && (c =? col)) with false; [reflexivity|].
    symmetry. apply andb_false_iff.
    destruct Hneq; [left | right]; apply Z.eqb_neq; assumption.
Qed.

Lemma setPixel_then_getArrColors_witness :
  Raster.super (raster 4 6 3 black) = Some (Raster.mkMat 4 6 3 (Some black)) /\
  Raster.data (Raster.mkMat 4 6 3 (Some black)) = Some black /\
  0 <= 2 < Raster.rows (Raster.mkMat 4 6 3 (Some black)) /\
  0 <= 5 < Raster.cols (Raster.mkMat 4 6 3 (Some black)) /\
  2 < 2 ^ 31 /\ 5 < 2 ^ 31 /\
  1 <= Raster.channels (Raster.mkMat 4 6 3 (Some black)) <= 5 /\
  Raster.channels (Raster.mkMat 4 6 3 (Some black))
  <= Z.of_nat (length [Byte.x0a; Byte.x14; Byte.x1e]) /\
  exists this',
    Raster.setPixel (raster 4 6 3 black) 2 5 [Byte.x0a; Byte.x14; Byte.x1e]
    = Raster.Value (true, this') /\
    Raster.filename this' = Raster.filename (raster 4 6 3 black) /\
    Raster.getArrColors this' 2 5
    = Raster.Value (Some (firstn 3 [Byte.x0a; Byte.x14; Byte.x1e])) /\
    forall r c,
      0 <= r < 4 -> 0 <= c < 6 ->
      r < 2 ^ 31 -> c < 2 ^ 31 -> r <> 2 \/ c <> 5 ->
      Raster.getArrColors this' r c = Raster.getArrColors (raster 4 6 3 black) r c.
Proof.
  split; [reflexivity|]. split; [reflexivity|].
  split; [cbn; lia|]. split; [cbn; lia|]. split; [lia|]. split; [lia|].
  split; [cbn; lia|]. split; [cbn; lia|].
  apply (setPixel_then_getArrColors (raster 4 6 3 black)
           (Raster.mkMat 4 6 3 (Some black)) black 2 5
           [Byte.x0a; Byte.x14; Byte.x1e]);
    cbn; (reflexivity || lia).
Defined.

Lemma switch_default {A : Type} (n : Z) (a b : A) :
  ~ 1 <= n <= 5 ->
  match n with 1 | 2 | 3 | 4 | 5 => a | _ => b end = b.
Proof.
  intros H. destruct n as [|p|p]; try reflexivity.
  do 3 (destruct p as [p|p|]; try reflexivity; try (exfalso; lia)).
Qed.

Lemma check_colors_value c_arr : forall left clr v,
  Raster.check_colors c_arr clr left = Raster.Value v -> v = clr + Z.of_nat left.
Proof.
  induction left as [|left IH]; intros clr v H.
  - cbn in H. injection H as <-. lia.
  - cbn [Raster.check_colors] in H.
    destruct (Raster.subscript c_arr clr) as [c| |]; cbn [Raster.then_] in H;
      try discriminate H.
    assert (Hb : (Raster.uint_of_uchar c <? 256) = true).
    { apply Z.ltb_lt. unfold Raster.uint_of_uchar.
      pose proof (Byte.to_N_bounded c). lia. }
    rewrite Hb in H. apply IH in H. lia.
Qed.

(** X22.  When [setPixel] returns [false] it has changed nothing, and
    the reason is the place or the matrix, never the values: the pixel
    is outside the image (or there is no image), or the number of
    channels is not one of 1 to 5. *)
Theorem setPixel_refusal this row col c_arr this' :
  Raster.setPixel this row col c_arr = Raster.Value (false, this') ->
  this' = this /\
  (Raster.dimInRange this (Raster.to_int row) (Raster.to_int col) = false \/
   exists m, Raster.super this = Some m /\ ~ 1 <= Raster.channels m <= 5).
Proof.
  unfold Raster.setPixel. intros H.
  destruct (Raster.initialized this) eqn:Hinit; cbn [negb orb] in H; cycle 1.
  { injection H as <-. split; [reflexivity | left].
    unfold Raster.dimInRange. rewrite Hinit. reflexivity. }
  destruct (Raster.dimInRange this (Raster.to_int row) (Raster.to_int col)) eqn:Hin;
    cbn [negb] in H; [| injection H as <-; auto].
  destruct (Raster.super this) as [m|] eqn:Hs;
    [| unfold Raster.initialized in Hinit; rewrite Hs in Hinit; discriminate Hinit].
  cbv zeta in H.
  destruct (Raster.check_colors c_arr 0 (Z.to_nat (Raster.channels m)))
    as [clr| |] eqn:Hck; cbn [Raster.then_] in H; try discriminate H.
  apply check_colors_value in Hck.
  destruct (Z_le_dec 1 (Raster.channels m)) as [H1 | H1];
    [destruct (Z_le_dec (Raster.channels m) 5) as [H5 | H5]|].
  - exfalso.
    replace (clr =? Raster.channels m) with true in H
      by (symmetry; apply Z.eqb_eq; lia).
    cbn [negb] in H.
    destruct (channels_cases _ (conj H1 H5)) as [E | [E | [E | [E | E]]]];
      rewrite E in H;
      match type of H with
      | Raster.then_ ?p _ = _ => destruct p; discriminate H
      end.
  - assert (Hno : ~ 1 <= Raster.channels m <= 5) by lia.
    rewrite (switch_default _ _ _ Hno) in H.
    destruct (negb (clr =? Raster.channels m)); injection H as <-;
      (split; [reflexivity | right; exists m; auto]).
  - assert (Hno : ~ 1 <= Raster.channels m <= 5) by lia.
    rewrite (switch_default _ _ _ Hno) in H.
    destruct (negb (clr =? Raster.channels m)); injection H as <-;
      (split; [reflexivity | right; exists m; auto]).
Qed.

Lemma setPixel_refusal_witness :
  Raster.setPixel (raster 4 6 3 black) 4 0 [Byte.xff; Byte.xff; Byte.xff]
  = Raster.Value (false, raster 4 6 3 black) /\
  raster 4 6 3 black = raster 4 6 3 black /\
  (Raster.dimInRange (raster 4 6 3 black) (Raster.to_int 4) (Raster.to_int 0)
   = false \/
   exists m, Raster.super (raster 4 6 3 black) = Some m /\
             ~ 1 <= Raster.channels m <= 5).
Proof.
  split; [reflexivity|].
  apply (setPixel_refusal (raster 4 6 3 black) 4 0
           [Byte.xff; Byte.xff; Byte.xff] (raster 4 6 3 black)).
  reflexivity.
Defined.

(** X23.  The range test is missing in the readers.  For a pixel
    outside an image with 1 to 5 channels [setPixel] returns [false]
    and [getPixelIntensity] returns -2, while [getArrColors] and
    [getArrColors_int] call [cv::Mat::at] outside the matrix. *)
Theorem readers_do_not_check_range C this m px row col c_arr :
  Raster.super this = Some m -> Raster.data m = Some px ->
  1 <= Raster.channels m <= 5 ->
  Raster.dimInRange this (Raster.to_int row) (Raster.to_int col) = false ->
  Raster.setPixel this row col c_arr = Raster.Value (false, this) /\
  Raster.getPixelIntensity C this row col = Raster.Value (-2) /\
  Raster.getArrColors this row col
  = Raster.OutsideMatrix (Raster.to_int row) (Raster.to_int col) /\
  Raster.getArrColors_int this row col
  = Raster.OutsideMatrix (Raster.to_int row) (Raster.to_int col).
Proof.
  intros Hs Hd Hn Hout.
  pose proof (getArrColors_outside this m px row col Hs Hd Hout Hn) as G.
  repeat split.
  - unfold Raster.setPixel. rewrite Hout. cbn [negb]. rewrite orb_true_r.
    reflexivity.
  - unfold Raster.getPixelIntensity. rewrite Hout. reflexivity.
  - exact G.
  - unfold Raster.getArrColors_int. rewrite G. reflexivity.
Qed.

Lemma readers_do_not_check_range_witness :
  Raster.super (raster 100 100 3 black)
  = Some (Raster.mkMat 100 100 3 (Some black)) /\
  Raster.data (Raster.mkMat 100 100 3 (Some black)) = Some black /\
  1 <= Raster.channels (Raster.mkMat 100 100 3 (Some black)) <= 5 /\
  Raster.dimInRange (raster 100 100 3 black) (Raster.to_int 200) (Raster.to_int 150)
  = false /\
  Raster.setPixel (raster 100 100 3 black) 200 150 [Byte.x00; Byte.x00; Byte.x00]
  = Raster.Value (false, raster 100 100 3 black) /\
  Raster.getPixelIntensity 3 (raster 100 100 3 black) 200 150 = Raster.Value (-2) /\
  Raster.getArrColors (raster 100 100 3 black) 200 150
  = Raster.OutsideMatrix (Raster.to_int 200) (Raster.to_int 150) /\
  Raster.getArrColors_int (raster 100 100 3 black) 200 150
  = Raster.OutsideMatrix (Raster.to_int 200) (Raster.to_int 150).
Proof.
  split; [reflexivity|]. split; [reflexivity|]. split; [cbn; lia|].
  split; [reflexivity|].
  apply (readers_do_not_check_range 3 (raster 100 100 3 black)
           (Raster.mkMat 100 100 3 (Some black)) black 200 150
           [Byte.x00; Byte.x00; Byte.x00]);
    [reflexivity | reflexivity | cbn; lia | reflexivity].
Defined.

Lemma uint_of_uchar_range c : 0 <= Raster.uint_of_uchar c <= 255.
Proof.
  unfold Raster.uint_of_uchar. pose proof (Byte.to_N_bounded c). lia.
Qed.

Lemma switch_channels_default {A : Type} (n : Z) (a1 a2 a3 a4 a5 b : A) :
  ~ 1 <= n <= 5 ->
  match n with 1 => a1 | 2 => a2 | 3 => a3 | 4 => a4 | 5 => a5 | _ => b end = b.
Proof.
  intros H. destruct n as [|p|p]; try reflexivity.
  do 3 (destruct p as [p|p|]; try reflexivity; try (exfalso; lia)).
Qed.

(** X24.  Where [getArrColors] returns the channels of a pixel,
    [getArrColors_int] returns the same values, one per channel of the
    matrix, as numbers from 0 to 255. *)
Theorem getArrColors_int_widens this row col arr_clrs :
  Raster.getArrColors this row col = Raster.Value (Some arr_clrs) ->
  Raster.getArrColors_int this row col
  = Raster.Value (Some (map Raster.uint_of_uchar arr_clrs)) /\
  Forall (fun v => 0 <= v <= 255) (map Raster.uint_of_uchar arr_clrs) /\
  exists m, Raster.super this = Some m /\
            Z.of_nat (length arr_clrs) = Raster.channels m.
Proof.
  intros H. pose proof H as H0. unfold Raster.getArrColors in H.
  destruct (Raster.initialized this); cbn [negb] in H; [| discriminate H].
  destruct (Raster.super this) as [m|] eqn:Hs; [| discriminate H].
  assert (Hall : Forall (fun v => 0 <= v <= 255)
                        (map Raster.uint_of_uchar arr_clrs)).
  { apply Forall_map, Forall_forall. intros c _. apply uint_of_uchar_range. }
  destruct (Z_le_dec 1 (Raster.channels m)) as [H1 | H1];
    [destruct (Z_le_dec (Raster.channels m) 5) as [H5 | H5]|];
    try (rewrite switch_channels_default in H by lia; discriminate H).
  unfold Raster.getArrColors_int. rewrite H0, Hs. cbn [Raster.then_].
  destruct (channels_cases _ (conj H1 H5)) as [E | [E | [E | [E | E]]]];
    rewrite E in *;
    unfold Raster.getArrColors_one, Raster.getArrColors_two,
           Raster.getArrColors_three, Raster.getArrColors_four,
           Raster.getArrColors_five in H;
    destruct (Raster.pixel_of this row col) as [pixel| |];
    cbn [Raster.then_] in H; try discriminate H;
    injection H as <-;
    (split; [reflexivity
           | split; [exact Hall
                    | exists m; split; [reflexivity | rewrite E; reflexivity]]]).
Qed.

Lemma getArrColors_int_widens_witness :
  Raster.getArrColors (raster 4 6 3 black) 1 1
  = Raster.Value (Some [Byte.x00; Byte.x00; Byte.x00]) /\
  Raster.getArrColors_int (raster 4 6 3 black) 1 1
  = Raster.Value (Some (map Raster.uint_of_uchar [Byte.x00; Byte.x00; Byte.x00])) /\
  Forall (fun v => 0 <= v <= 255)
         (map Raster.uint_of_uchar [Byte.x00; Byte.x00; Byte.x00]) /\
  exists m, Raster.super (raster 4 6 3 black) = Some m /\
            Z.of_nat (length [Byte.x00; Byte.x00; Byte.x00]) = Raster.channels m.
Proof.
  split; [reflexivity|].
  apply (getArrColors_int_widens (raster 4 6 3 black) 1 1
           [Byte.x00; Byte.x00; Byte.x00]).
  reflexivity.
Defined.

Lemma channel_sum_from (pixel : Z -> Raster.uchar) : forall left k acc,
  0 <= acc -> acc + 255 * Z.of_nat left < 2 ^ 32 ->
  Raster.sum_channels pixel (Z.of_nat k) left acc =
  acc + fold_right Z.add 0
          (map (fun j => Raster.uint_of_uchar (pixel (Z.of_nat j))) (seq k left)).
Proof.
  induction left as [|left IH]; intros k acc Hacc Hmax.
  - cbn. lia.
  - cbn [Raster.sum_channels seq map fold_right].
    pose proof (uint_of_uchar_range (pixel (Z.of_nat k))) as Hv.
    unfold Raster.to_uint. rewrite Z.mod_small by lia.
    replace (Z.of_nat k + 1) with (Z.of_nat (S k)) by lia.
    rewrite IH by lia. lia.
Qed.

Lemma channel_sum_range pixel n :
  0 <= channel_sum pixel n <= 255 * Z.of_nat n.
Proof.
  unfold channel_sum. generalize 0%nat.
  induction n as [|n IH]; intros k; [cbn; lia|].
  cbn [seq map fold_right].
  pose proof (uint_of_uchar_range (pixel (Z.of_nat k))).
  specialize (IH (S k)). lia.
Qed.

(** X25.  Inside the image and with [C] the number of channels of the
    matrix, [getPixelIntensity] returns the sum of the channel values
    divided by [C] as whole numbers divide: the mean rounded down, a
    whole number from 0 to 255.  ([C] is at most 512, the largest
    number of channels OpenCV has.) *)
Theorem getPixelIntensity_value C this m px row col :
  Raster.super this = Some m -> Raster.data m = Some px ->
  0 <= row < Raster.rows m -> 0 <= col < Raster.cols m ->
  row < 2 ^ 31 -> col < 2 ^ 31 ->
  Raster.channels m = Z.pos C -> Z.pos C <= 512 ->
  Raster.getPixelIntensity C this row col
  = Raster.Value (channel_sum (px row col) (Pos.to_nat C) / Z.pos C) /\
  0 <= channel_sum (px row col) (Pos.to_nat C) / Z.pos C <= 255.
Proof.
  intros Hs Hd Hr Hc Hr31 Hc31 HC Hmax.
  assert (Er : Raster.to_int row = row) by (apply to_int_small; lia).
  assert (Ec : Raster.to_int col = col) by (apply to_int_small; lia).
  pose proof (channel_sum_range (px row col) (Pos.to_nat C)) as Hsum.
  rewrite positive_nat_Z in Hsum.
  split.
  - unfold Raster.getPixelIntensity. rewrite Er, Ec.
    assert (Hin : Raster.dimInRange this row col = true)
      by (apply raster_dimInRange_spec; exists m, px; auto).
    rewrite Hin, Hs, HC. cbn [negb]. unfold Raster.to_uint at 1.
    rewrite Z.mod_small by lia. rewrite Z.eqb_refl. cbn [negb].
    unfold Raster.at_. rewrite Hd, raster_in_range_true by assumption.
    cbn [Raster.then_]. cbv zeta.
    pose proof (channel_sum_from (px row col) (Pos.to_nat C) 0 0) as S.
    cbn [Z.of_nat] in S. rewrite S by (rewrite ?positive_nat_Z; lia).
    reflexivity.
  - split.
    + apply Z.div_pos; lia.
    + apply Z.div_le_upper_bound; lia.
Qed.

Lemma getPixelIntensity_value_witness :
  Raster.super (raster 4 6 2 two_tone)
  = Some (Raster.mkMat 4 6 2 (Some two_tone)) /\
  Raster.data (Raster.mkMat 4 6 2 (Some two_tone)) = Some two_tone /\
  0 <= 1 < Raster.rows (Raster.mkMat 4 6 2 (Some two_tone)) /\
  0 <= 1 < Raster.cols (Raster.mkMat 4 6 2 (Some two_tone)) /\
  1 < 2 ^ 31 /\ 1 < 2 ^ 31 /\
  Raster.channels (Raster.mkMat 4 6 2 (Some two_tone)) = Z.pos 2 /\
  Z.pos 2 <= 512 /\
  Raster.getPixelIntensity 2 (raster 4 6 2 two_tone) 1 1
  = Raster.Value (channel_sum (two_tone 1 1) (Pos.to_nat 2) / Z.pos 2) /\
  0 <= channel_sum (two_tone 1 1) (Pos.to_nat 2) / Z.pos 2 <= 255.
Proof.
  split; [reflexivity|]. split; [reflexivity|].
  split; [cbn; lia|]. split; [cbn; lia|]. split; [lia|]. split; [lia|].
  split; [reflexivity|]. split; [lia|].
  apply (getPixelIntensity_value 2 (raster 4 6 2 two_tone)
           (Raster.mkMat 4 6 2 (Some two_tone)) two_tone 1 1);
    cbn; (reflexivity || lia).
Defined.

(** The mean of 1 and 2 comes out as 1. *)
Example getPixelIntensity_rounds_down :
  Raster.getPixelIntensity 2 (raster 4 6 2 two_tone) 1 1 = Raster.Value 1.
Proof. reflexivity. Qed.

Lemma plain_initialized this : initialized (plain this) = Raster.initialized this.
Proof.
  unfold initialized, plain, Raster.initialized. cbn [super].
  destruct (Raster.super this) as [m|]; reflexivity.
Qed.

(** X26.  The range test agrees with the size the object reports: for
    [uint] coordinates a pixel passes [dimInRange] exactly when its
    row is below [getHeight()] and its column below [getWidth()]; on
    an object without image both are 0 and no pixel passes. *)
Theorem dimInRange_by_size this row col :
  (forall m, Raster.super this = Some m ->
             0 <= Raster.rows m < 2 ^ 31 /\ 0 <= Raster.cols m < 2 ^ 31) ->
  0 <= row < 2 ^ 32 -> 0 <= col < 2 ^ 32 ->
  Raster.dimInRange this (Raster.to_int row) (Raster.to_int col)
  = (row <? Raster.getHeight this) && (col <? Raster.getWidth this).
Proof.
  intros Hm Hrow Hcol.
  unfold Raster.dimInRange, Raster.getHeight, Raster.getWidth.
  destruct (Raster.initialized this) eqn:Hinit; cbn [negb].
  - destruct (Raster.super this) as [m|] eqn:Hs;
      [| unfold Raster.initialized in Hinit; rewrite Hs in Hinit; discriminate Hinit].
    destruct (Hm m eq_refl) as [Hr Hc].
    unfold Raster.to_uint. rewrite !Z.mod_small by lia.
    unfold Raster.to_int. rewrite !Z.geb_leb.
    destruct (Z.ltb_spec row (2 ^ 31)), (Z.ltb_spec col (2 ^ 31));
      repeat match goal with
             | |- context [?a <? ?b] => destruct (Z.ltb_spec a b)
             | |- context [?a <=? ?b] => destruct (Z.leb_spec a b)
             end; cbn [orb andb]; (reflexivity || lia).
  - replace (row <? 0) with false by (symmetry; apply Z.ltb_ge; lia).
    reflexivity.
Qed.

Lemma dimInRange_by_size_witness :
  (forall m, Raster.super (raster 4 6 3 black) = Some m ->
             0 <= Raster.rows m < 2 ^ 31 /\ 0 <= Raster.cols m < 2 ^ 31) /\
  0 <= 4294967295 < 2 ^ 32 /\ 0 <= 2 < 2 ^ 32 /\
  Raster.dimInRange (raster 4 6 3 black)
                    (Raster.to_int 4294967295) (Raster.to_int 2)
  = (4294967295 <? Raster.getHeight (raster 4 6 3 black))
    && (2 <? Raster.getWidth (raster 4 6 3 black)).
Proof.
  assert (H : forall m, Raster.super (raster 4 6 3 black) = Some m ->
                0 <= Raster.rows m < 2 ^ 31 /\ 0 <= Raster.cols m < 2 ^ 31)
    by (intros m E; injection E as <-; cbn; lia).
  split; [exact H|]. split; [lia|]. split; [lia|].
  apply (dimInRange_by_size (raster 4 6 3 black) 4294967295 2 H); lia.
Defined.

(** ** Opening, copying and saving in a row, as ImgTest.cpp does *)

Section Demo.

Variable file_exists : str -> bool.
Variable imread : str -> Mat.

(** X27.  Given the name of a file that exists and has no dot in its
    name, [setupImage] returns an object of that name, and the copy
    constructor, called on it, throws [std::out_of_range]. *)
Theorem copy_after_setup_without_dot arg :
  empty arg = false -> has_dot arg = false -> file_exists arg = true ->
  exists img,
    setupImage file_exists imread (Some arg) = Some img /\
    filename img = arg /\
    Image_copy img = Throw std_out_of_range.
Proof.
  intros Hne Hdot Hfile. rewrite setupImage_eq. cbv zeta.
  rewrite Hne, Hfile. cbn [negb andb].
  eexists. split; [reflexivity|]. split; [reflexivity|].
  unfold Image_copy. cbn [filename].
  rewrite generateFilename_dotless; [reflexivity | | apply has_dot_false, Hdot].
  intros ->. discriminate Hne.
Qed.

(** X28.  Without argument, when "mario.png" exists and can be
    decoded, [setupImage] returns the opened image of that name, its
    copy is named "mario_1.png", and [saveImage] on the copy calls the
    codec with that name, PNG compression and level 9. *)
Theorem save_copy_of_default (imwrite_completes : imwrite_args -> bool) :
  file_exists DEFAULT_IMG_FILENAME = true ->
  data (imread DEFAULT_IMG_FILENAME) = true ->
  exists img c,
    setupImage file_exists imread None = Some img /\
    filename img = lit "mario.png" /\ initialized img = true /\
    Image_copy img = Ret c /\ filename c = lit "mario_1.png" /\
    saveImage imwrite_completes c
    = Ret (mkSaved
             (imwrite_completes
                (mkArgs (lit "mario_1.png") CV_IMWRITE_PNG_COMPRESSION 9))
             c
             (Some (mkArgs (lit "mario_1.png") CV_IMWRITE_PNG_COMPRESSION 9))).
Proof.
  intros Hfile Hdata. rewrite setupImage_eq. cbv zeta. rewrite Hfile.
  eexists. eexists. split; [reflexivity|]. split; [reflexivity|].
  split; [unfold initialized; cbn [super]; exact Hdata|].
  unfold Image_copy. cbn [filename super].
  change (generateFilename DEFAULT_IMG_FILENAME) with (Ret (lit "mario_1.png")).
  cbn [bind]. split; [reflexivity|]. split; [reflexivity|].
  unfold saveImage, initialized. cbn [super data filename]. rewrite Hdata.
  reflexivity.
Qed.

End Demo.

Lemma copy_after_setup_without_dot_witness :
  empty (lit "mario") = false /\ has_dot (lit "mario") = false /\
  (fun _ : str => true) (lit "mario") = true /\
  exists img,
    setupImage (fun _ => true) (fun _ => mkMat true) (Some (lit "mario"))
    = Some img /\
    filename img = lit "mario" /\
    Image_copy img = Throw std_out_of_range.
Proof.
  split; [reflexivity|]. split; [reflexivity|]. split; [reflexivity|].
  apply (copy_after_setup_without_dot (fun _ => true) (fun _ => mkMat true)
           (lit "mario")); reflexivity.
Defined.

Lemma save_copy_of_default_witness :
  (fun _ : str => true) DEFAULT_IMG_FILENAME = true /\
  data ((fun _ : str => mkMat true) DEFAULT_IMG_FILENAME) = true /\
  exists img c,
    setupImage (fun _ => true) (fun _ => mkMat true) None = Some img /\
    filename img = lit "mario.png" /\ initialized img = true /\
    Image_copy img = Ret c /\ filename c = lit "mario_1.png" /\
    saveImage (fun _ => true) c
    = Ret (mkSaved
             ((fun _ : imwrite_args => true)
                (mkArgs (lit "mario_1.png") CV_IMWRITE_PNG_COMPRESSION 9))
             c
             (Some (mkArgs (lit "mario_1.png") CV_IMWRITE_PNG_COMPRESSION 9))).
Proof.
  split; [reflexivity|]. split; [reflexivity|].
  apply (save_copy_of_default (fun _ => true) (fun _ => mkMat true)
           (fun _ => true)); reflexivity.
Defined.
